(** * netplan, src/error.c: loading and error handling

    A shallow embedding of the diagnostic functions of [src/error.c]
    (caret rendering, the two line locators, the syntax and semantic error
    formatters and the accessors of the error handle), and the properties
    of the error-reporting specification proved or refuted on them. *)

From Stdlib Require Import ZArith Lia Bool Ascii String DecimalString.
From stdpp Require Import base option list.

Local Open Scope Z_scope.

(** ** C integers

    [size_t] and [uint64_t] are 64 bits wide, [int] and [gint] are 32-bit
    two's complement, [GQuark] is an unsigned 32-bit integer.  A conversion
    to an unsigned type reduces modulo the width; a conversion to [int]
    keeps the low 32 bits and reads them as a signed number. *)

Definition to_uint64 (z : Z) : Z := z mod 2 ^ 64.

Definition to_size_t (z : Z) : Z := z mod 2 ^ 64.

Definition to_int (z : Z) : Z := (z + 2 ^ 31) mod 2 ^ 32 - 2 ^ 31.

Definition INT_MAX : Z := 2 ^ 31 - 1.

Definition is_guint32 (z : Z) : Prop := 0 <= z < 2 ^ 32.

Definition is_gint (z : Z) : Prop := - 2 ^ 31 <= z <= INT_MAX.

Definition gboolean := Z.
Definition FALSE : gboolean := 0.
Definition TRUE : gboolean := 1.

(** ** The error handle

    [NetplanError] is GLib's [GError]: a [GQuark] domain, a [gint] code and
    an owned message. *)

Record GError := mkGError {
  domain : Z;
  code : Z;
  message : string
}.

Definition NetplanError := GError.

(** [uint64_t error_code = (uint64_t)error->domain << 32 | (uint64_t)error->code;] *)
Definition netplan_error_code (error : NetplanError) : Z :=
  Z.lor (to_uint64 (Z.shiftl (to_uint64 (domain error)) 32))
        (to_uint64 (code error)).

(** The two halves of a composite code, as a caller takes it apart. *)
Definition code_high32 (c : Z) : Z := Z.shiftr c 32.
Definition code_low32 (c : Z) : Z := Z.land c (2 ^ 32 - 1).

(** ** Characters, C strings and printf conversions *)

Definition LF : ascii := "010"%char.
Definition NUL : ascii := "000"%char.
Definition TAB : ascii := "009"%char.
Definition SP : ascii := " "%char.

(** The value of a [char*] under [%s]: the bytes before the first NUL. *)
Fixpoint c_str (l : list ascii) : string :=
  match l with
  | [] => EmptyString
  | c :: r => if Ascii.eqb c NUL then EmptyString else String c (c_str r)
  end.

(** [%s] with an argument that may be [NULL] (glibc prints [(null)]). *)
Definition fmt_s (s : option string) : string :=
  match s with
  | Some s => s
  | None => "(null)"%string
  end.

(** [%zu] *)
Definition fmt_zu (z : Z) : string :=
  NilZero.string_of_uint (N.to_uint (Z.to_N z)).

(** [for (i = 0; i < n; i++) body]: the body runs [max n 0] times. *)
Definition for_loop {A : Type} (n : Z) (body : A -> A) (init : A) : A :=
  Nat.iter (Z.to_nat n) body init.

(** ** Caret renderer

    [for (i = 0; (column > 0 && i < column); i++) g_string_append_printf(message, " ");]
    then one caret. *)
Definition write_error_marker (message : string) (column : Z) : string :=
  let message := for_loop column (fun m => (m ++ " ")%string) message in
  (message ++ "^")%string.

(** ** Setting an error

    [g_set_error] stores the new error in an empty slot; over a slot that
    already holds an error it warns and leaves the slot as it is. *)
Definition g_set_error (error : option GError) (d c : Z) (msg : string)
  : option GError :=
  match error with
  | None => Some (mkGError d c msg)
  | Some old => Some old
  end.

(** ** File line locator *)

(** What a path names: a file that cannot be opened for reading (with the
    error GIO reports), or the bytes of a readable file. *)
Inductive file :=
  | Unreadable (e : GError)
  | Readable (content : list ascii).

Definition filesystem := string -> file.

(** A [GDataInputStream*]: the bytes still to be read, or a stream built
    over a [NULL] base stream, from which every read returns [NULL]. *)
Definition GDataInputStream := option (list ascii).

Record NetplanParser := mkNetplanParser {
  current_filepath : option string
}.

(** [g_file_read (cur_file, NULL, error)] *)
Definition g_file_read (fs : filesystem) (path : option string)
    (error : option GError) : GDataInputStream * option GError :=
  match path with
  | None => (None, error)
  | Some p =>
      match fs p with
      | Readable content => (Some content, error)
      | Unreadable e => (None, g_set_error error (domain e) (code e) (message e))
      end
  end.

(** The bytes before the first line feed, and the bytes after it. *)
Fixpoint split_line (s : list ascii) : list ascii * list ascii :=
  match s with
  | [] => ([], [])
  | c :: r =>
      if Ascii.eqb c LF then ([], r)
      else let '(l, r') := split_line r in (c :: l, r')
  end.

(** [g_data_input_stream_read_line (stream, &len, NULL, error)]: the next
    line without its line feed, or [NULL] at the end of the stream. *)
Definition g_data_input_stream_read_line (stream : GDataInputStream)
  : option (list ascii) * GDataInputStream :=
  match stream with
  | None => (None, None)
  | Some [] => (None, Some [])
  | Some s => let '(l, r) := split_line s in (Some l, Some r)
  end.

(** The body of the read loop: [g_free(line); line = g_data_input_stream_read_line(...)]. *)
Definition read_next (st : option (list ascii) * GDataInputStream)
  : option (list ascii) * GDataInputStream :=
  g_data_input_stream_read_line (snd st).

(** The value of [line] after
    [for (int i = 0; i < line_num + 1; i++) { ... }]. *)
Definition syntax_error_line (stream : GDataInputStream) (line_num : Z)
  : option (list ascii) :=
  fst (for_loop (to_int (line_num + 1)) read_next (None, stream)).

Definition get_syntax_error_context (fs : filesystem) (npp : NetplanParser)
    (line_num column : Z) (error : option GError) : string * option GError :=
  let '(stream, error) := g_file_read fs (current_filepath npp) error in
  let line := syntax_error_line stream line_num in
  let message := (fmt_s (c_str <$> line) ++ String LF EmptyString)%string in
  (write_error_marker message column, error).

(** ** Memory

    The tokenizer's scan buffer lives in an address space of bytes; a
    pointer is an address.  Reading or writing outside the address space
    is a fault.  The heap also logs which addresses were read and written. *)

Record heap := mkHeap {
  bytes : list ascii;
  loads : list nat;
  stores : list nat
}.

Inductive outcome (A : Type) :=
  | Done (a : A) (h : heap)
  | Fault.

Arguments Done {A} a h.
Arguments Fault {A}.

Definition M (A : Type) : Type := heap -> outcome A.

Definition ret {A : Type} (a : A) : M A := fun h => Done a h.

Definition bind {A B : Type} (m : M A) (f : A -> M B) : M B :=
  fun h => match m h with
           | Done a h' => f a h'
           | Fault => Fault
           end.

Notation "x <- m ;; k" := (bind m (fun x => k))
  (at level 100, m at next level, right associativity).

(** [*a] as an rvalue *)
Definition load (a : nat) : M ascii :=
  fun h => match bytes h !! a with
           | Some b => Done b (mkHeap (bytes h) (a :: loads h) (stores h))
           | None => Fault
           end.

(** [*a = b] *)
Definition store (a : nat) (b : ascii) : M unit :=
  fun h => if decide (a < length (bytes h))%nat
           then Done tt (mkHeap (<[a:=b]> (bytes h)) (loads h) (a :: stores h))
           else Fault.

(** Reading the C string at [a], as [%s] does: byte after byte up to and
    including the first NUL.  [fuel] is the number of bytes between [a] and
    the end of the address space, so with no fuel left the next read is
    outside it. *)
Fixpoint load_string_from (fuel : nat) (a : nat) : M string :=
  match fuel with
  | O => fun _ => Fault
  | S fuel' =>
      c <- load a ;;
      if Ascii.eqb c NUL then ret EmptyString
      else s <- load_string_from fuel' (S a) ;; ret (String c s)
  end.

Definition load_string (a : nat) : M string :=
  fun h => load_string_from (length (bytes h) - a) a h.

(** ** The tokenizer (libyaml's [yaml_parser_t], the fields [error.c] reads) *)

Record yaml_mark_t := mkMark {
  mark_index : Z;
  mark_line : Z;
  mark_column : Z
}.

Inductive yaml_parser_state_t :=
  | YAML_PARSE_STREAM_START_STATE
  | YAML_PARSE_IMPLICIT_DOCUMENT_START_STATE
  | YAML_PARSE_DOCUMENT_START_STATE
  | YAML_PARSE_DOCUMENT_CONTENT_STATE
  | YAML_PARSE_DOCUMENT_END_STATE
  | YAML_PARSE_BLOCK_NODE_STATE
  | YAML_PARSE_BLOCK_NODE_OR_INDENTLESS_SEQUENCE_STATE
  | YAML_PARSE_FLOW_NODE_STATE
  | YAML_PARSE_BLOCK_SEQUENCE_FIRST_ENTRY_STATE
  | YAML_PARSE_BLOCK_SEQUENCE_ENTRY_STATE
  | YAML_PARSE_INDENTLESS_SEQUENCE_ENTRY_STATE
  | YAML_PARSE_BLOCK_MAPPING_FIRST_KEY_STATE
  | YAML_PARSE_BLOCK_MAPPING_KEY_STATE
  | YAML_PARSE_BLOCK_MAPPING_VALUE_STATE
  | YAML_PARSE_FLOW_SEQUENCE_FIRST_ENTRY_STATE
  | YAML_PARSE_FLOW_SEQUENCE_ENTRY_STATE
  | YAML_PARSE_FLOW_SEQUENCE_ENTRY_MAPPING_KEY_STATE
  | YAML_PARSE_FLOW_SEQUENCE_ENTRY_MAPPING_VALUE_STATE
  | YAML_PARSE_FLOW_SEQUENCE_ENTRY_MAPPING_END_STATE
  | YAML_PARSE_FLOW_MAPPING_FIRST_KEY_STATE
  | YAML_PARSE_FLOW_MAPPING_KEY_STATE
  | YAML_PARSE_FLOW_MAPPING_VALUE_STATE
  | YAML_PARSE_FLOW_MAPPING_EMPTY_VALUE_STATE
  | YAML_PARSE_END_STATE.

Definition is_block_mapping_key (s : yaml_parser_state_t) : bool :=
  match s with
  | YAML_PARSE_BLOCK_MAPPING_KEY_STATE => true
  | _ => false
  end.

(** [buffer_start], [buffer_pointer] and [buffer_last] are the addresses
    [parser->buffer.start], [.pointer] and [.last]; the scans read
    [buffer_last] itself, so it is the last byte of the buffer. *)
Record yaml_parser_t := mkParser {
  problem : option string;
  problem_mark : yaml_mark_t;
  buffer_start : nat;
  buffer_pointer : nat;
  buffer_last : nat;
  token_available : Z;
  state : yaml_parser_state_t
}.

(** ** Buffer line locator *)

(** [while (current > parser->buffer.start) { current--;
      if ( *current == '\n') { line = current + 1; break; } }]
    returning the values of [current] and [line] after the loop. *)
Fixpoint scan_back (start current line : nat) : M (nat * nat) :=
  match current with
  | O => ret (current, line)
  | S c =>
      if decide (start < current)%nat then
        b <- load c ;;
        if Ascii.eqb b LF then ret (c, S c)
        else scan_back start c line
      else ret (current, line)
  end.

(** [while (current <= parser->buffer.last) {
      if ( *current == '\n') { *current = '\0'; break; } current++; }]
    where [n] counts the addresses from [current] to [last]. *)
Fixpoint scan_fwd (n : nat) (current : nat) : M unit :=
  match n with
  | O => ret tt
  | S n' =>
      b <- load current ;;
      if Ascii.eqb b LF then store current NUL
      else scan_fwd n' (S current)
  end.

(** The value of [line] when the buffer is printed: the two scans. *)
Definition locate_line (parser : yaml_parser_t) : M nat :=
  let line := buffer_pointer parser in
  let current := line in
  found <- scan_back (buffer_start parser) current line ;;
  let current := fst found in
  let line := snd found in
  let line := if decide (current <= buffer_start parser)%nat
              then buffer_start parser else line in
  let current := (line + 1)%nat in
  _ <- scan_fwd (S (buffer_last parser) - current) current ;;
  ret line.

Definition get_parser_error_context (parser : yaml_parser_t) : M string :=
  line <- locate_line parser ;;
  s <- load_string line ;;
  let message := (s ++ String LF EmptyString)%string in
  ret (write_error_marker message (to_int (mark_column (problem_mark parser)))).

(** ** Semantic errors *)

Record yaml_node_t := mkNode {
  start_mark : yaml_mark_t;
  end_mark : yaml_mark_t
}.

(** The enumerators of netplan's error domains and codes that [error.c]
    uses; their values are declared in a header. *)
Record error_enums := mkEnums {
  NETPLAN_PARSER_ERROR : Z;
  NETPLAN_VALIDATION_ERROR : Z;
  NETPLAN_ERROR_INVALID_YAML : Z;
  NETPLAN_ERROR_INVALID_CONFIG : Z;
  NETPLAN_ERROR_CONFIG_GENERIC : Z;
  NETPLAN_ERROR_CONFIG_VALIDATION : Z
}.

Section Formatters.

Variable E : error_enums.

(** [parser_error (parser, yaml, error)].  The context is built first;
    the tests then read [*parser->buffer.pointer], and since nothing is
    written between them the byte is read once. *)
Definition parser_error (parser : yaml_parser_t) (yaml : option string)
    (error : option GError) : M (gboolean * option GError) :=
  error_context <- get_parser_error_context parser ;;
  let yaml := match yaml with Some y => y | None => "(unnamed file)"%string end in
  let position :=
    (yaml ++ ":" ++ fmt_zu (to_size_t (mark_line (problem_mark parser) + 1))
     ++ ":" ++ fmt_zu (to_size_t (mark_column (problem_mark parser) + 1)))%string in
  c <- load (buffer_pointer parser) ;;
  if Ascii.eqb c TAB then
    ret (FALSE,
         g_set_error error (NETPLAN_PARSER_ERROR E) (NETPLAN_ERROR_INVALID_YAML E)
           (position ++ ": Invalid YAML: tabs are not allowed for indent:"
            ++ String LF EmptyString ++ error_context)%string)
  else if (Ascii.eqb c SP || Ascii.eqb c NUL) && (token_available parser =? 0) then
    ret (FALSE,
         g_set_error error (NETPLAN_PARSER_ERROR E) (NETPLAN_ERROR_INVALID_YAML E)
           (position ++ ": Invalid YAML: aliases are not supported:"
            ++ String LF EmptyString ++ error_context)%string)
  else if is_block_mapping_key (state parser) then
    ret (FALSE,
         g_set_error error (NETPLAN_PARSER_ERROR E) (NETPLAN_ERROR_INVALID_YAML E)
           (position ++ ": Invalid YAML: inconsistent indentation:"
            ++ String LF EmptyString ++ error_context)%string)
  else
    ret (FALSE,
         g_set_error error (NETPLAN_PARSER_ERROR E) (NETPLAN_ERROR_INVALID_YAML E)
           (position ++ ": Invalid YAML: " ++ fmt_s (problem parser) ++ ":"
            ++ String LF EmptyString ++ error_context)%string).

(** [yaml_error (npp, node, error, msg, ...)]; [s] is the message after
    [g_vasprintf] has interpolated its arguments. *)
Definition yaml_error (fs : filesystem) (npp : NetplanParser)
    (node : option yaml_node_t) (error : option GError) (s : string)
  : gboolean * option GError :=
  match node, current_filepath npp with
  | Some node, Some filepath =>
      let '(error_context, error) :=
        get_syntax_error_context fs npp
          (to_int (mark_line (start_mark node)))
          (to_int (mark_column (start_mark node))) error in
      (FALSE,
       g_set_error error (NETPLAN_PARSER_ERROR E) (NETPLAN_ERROR_INVALID_CONFIG E)
         (filepath ++ ":" ++ fmt_zu (to_size_t (mark_line (start_mark node) + 1))
          ++ ":" ++ fmt_zu (to_size_t (mark_column (start_mark node) + 1))
          ++ ": Error in network definition: " ++ s
          ++ String LF EmptyString ++ error_context)%string)
  | _, Some filepath =>
      (FALSE,
       g_set_error error (NETPLAN_VALIDATION_ERROR E) (NETPLAN_ERROR_CONFIG_VALIDATION E)
         (filepath ++ ": Error in network definition: " ++ s)%string)
  | _, None =>
      (FALSE,
       g_set_error error (NETPLAN_VALIDATION_ERROR E) (NETPLAN_ERROR_CONFIG_GENERIC E)
         ("Error in network definition: " ++ s)%string)
  end.

End Formatters.

(** ** Copying the message out

    [netplan_error_message] hands the owned message to
    [netplan_copy_string], which is declared in [util.h]; the destination
    buffer is the caller's memory, [buf_size] its capacity. *)

(** Modelled from the spec: [netplan_copy_string] is defined outside
    [error.c].  It copies up to [capacity] bytes of the message into the
    caller-supplied buffer, truncating, and gives the number of bytes
    written; bytes of the buffer it does not write keep their value. *)
Fixpoint copy_bytes (src : list ascii) (buf : list ascii) (capacity : nat)
  : nat * list ascii :=
  match capacity, src, buf with
  | S capacity', c :: src', _ :: buf' =>
      let '(n, out) := copy_bytes src' buf' capacity' in (S n, c :: out)
  | _, _, _ => (O, buf)
  end.

(** Modelled from the spec: [netplan_copy_string (input, out_buffer, out_size)],
    with [out_size] a [size_t] and the result an [ssize_t]. *)
Definition netplan_copy_string (input : string) (out_buffer : list ascii)
    (out_size : Z) : Z * list ascii :=
  let '(n, out) :=
    copy_bytes (list_ascii_of_string input) out_buffer (Z.to_nat out_size) in
  (Z.of_nat n, out).

(** [return netplan_copy_string(error->message, buf, buf_size);] *)
Definition netplan_error_message (error : NetplanError) (buf : list ascii)
    (buf_size : Z) : Z * list ascii :=
  netplan_copy_string (message error) buf buf_size.

(** ** Releasing an error

    [netplan_error_clear] is [g_clear_error (error)]: the error in the slot,
    if there is one, is freed and the slot is left empty. *)
Definition netplan_error_clear (error : option GError) : option GError := None.

(** ** Notions used to state properties *)

(** The number of line feeds in a text, one less than its number of
    lines. *)
Fixpoint count_line_feeds (s : string) : nat :=
  match s with
  | EmptyString => O
  | String c r => if Ascii.eqb c LF then S (count_line_feeds r) else count_line_feeds r
  end.

(** A line of text: no byte of it is a line feed. *)
Definition no_line_feed (l : list ascii) : Prop := Forall (fun c => c <> LF) l.

(** The bytes of a text file whose lines are [ls], each one ended by a
    line feed. *)
Fixpoint unlines (ls : list (list ascii)) : list ascii :=
  match ls with
  | [] => []
  | l :: rest => l ++ LF :: unlines rest
  end.

(** ** What the specification says, for comparison with the code *)

(** The four categories of a syntax error and the precedence among them,
    as the specification words it. *)
Inductive category :=
  | TabIndentation
  | UnsupportedAlias
  | InconsistentIndentation
  | GenericSyntaxError.

Definition spec_classify (current_byte : ascii) (token_is_available : bool)
    (st : yaml_parser_state_t) : category :=
  if Ascii.eqb current_byte TAB then TabIndentation
  else if (Ascii.eqb current_byte SP || Ascii.eqb current_byte NUL)
          && negb token_is_available then UnsupportedAlias
  else if is_block_mapping_key st then InconsistentIndentation
  else GenericSyntaxError.

Definition category_text (cat : category) (tokenizer_problem : option string)
  : string :=
  match cat with
  | TabIndentation => "tabs are not allowed for indent"
  | UnsupportedAlias => "aliases are not supported"
  | InconsistentIndentation => "inconsistent indentation"
  | GenericSyntaxError => fmt_s tokenizer_problem
  end.

(** [<file>:<line+1>:<col+1>: Invalid YAML: <category-text>:\n<context>] *)
Definition syntax_error_message (yaml : option string) (mark : yaml_mark_t)
    (cat : category) (tokenizer_problem : option string) (context : string)
  : string :=
  ((match yaml with Some y => y | None => "(unnamed file)" end)
   ++ ":" ++ fmt_zu (to_size_t (mark_line mark + 1))
   ++ ":" ++ fmt_zu (to_size_t (mark_column mark + 1))
   ++ ": Invalid YAML: " ++ category_text cat tokenizer_problem ++ ":"
   ++ String LF EmptyString ++ context)%string.

(** The lines of a file: its bytes cut at every line feed; a last line
    with no line feed after it counts, an empty remainder does not. *)
Fixpoint file_lines (s : list ascii) : list (list ascii) :=
  match s with
  | [] => []
  | c :: r =>
      if Ascii.eqb c LF then [] :: file_lines r
      else match file_lines r with
           | [] => [[c]]
           | l :: ls => (c :: l) :: ls
           end
  end.

Fixpoint spaces (n : nat) : string :=
  match n with
  | O => EmptyString
  | S n' => String SP (spaces n')
  end.

(** [<path>:<L+1>:<C+1>: Error in network definition: <msg>], the line and
    a caret under column [C]. *)
Definition spec_semantic_message (path : string) (L C : Z) (msg : string)
    (line : string) : string :=
  (path ++ ":" ++ fmt_zu (L + 1) ++ ":" ++ fmt_zu (C + 1)
   ++ ": Error in network definition: " ++ msg ++ String LF EmptyString
   ++ line ++ String LF EmptyString ++ spaces (Z.to_nat C) ++ "^")%string.

Definition line_feed_at (mem : list ascii) (a : nat) : bool :=
  match mem !! a with
  | Some c => Ascii.eqb c LF
  | None => false
  end.

(** The line containing the pointer, as the specification words it: it
    begins after the nearest line feed strictly before the pointer, or at
    the buffer start ... *)
Fixpoint spec_line_begin (mem : list ascii) (start p : nat) : nat :=
  match p with
  | O => start
  | S q =>
      if decide (start < p)%nat then
        if line_feed_at mem q then p else spec_line_begin mem start q
      else start
  end.

(** ... and ends before the next line feed at or after its beginning, or
    with the last byte of the buffer ([n] addresses remain). *)
Fixpoint spec_line_end (mem : list ascii) (n : nat) (j : nat) : nat :=
  match n with
  | O => j
  | S n' => if line_feed_at mem j then j else spec_line_end mem n' (S j)
  end.

Definition spec_line (mem : list ascii) (start pointer last : nat) : list ascii :=
  let b := spec_line_begin mem start pointer in
  let e := spec_line_end mem (S last - b) b in
  take (e - b) (drop b mem).

(** ** Sample inputs *)

Definition text (s : string) : list ascii := list_ascii_of_string s.
Definition lf : string := String LF EmptyString.
Definition nul : string := String NUL EmptyString.
Definition tab : string := String TAB EmptyString.

Definition heap_of (s : list ascii) : heap := mkHeap s [] [].

(** The heap after more reads. *)
Definition logged (h : heap) (new : list nat) : heap :=
  mkHeap (bytes h) (new ++ loads h) (stores h).

Definition a_mark (l c : Z) : yaml_mark_t := mkMark 0 l c.

(** The enumerators as netplan's headers number them; the theorems hold
    for any values. *)
Definition netplan_enums : error_enums := mkEnums 1 2 0 1 0 1.

(** Three lines, [ab], [cd] and [ef], and the NUL the tokenizer puts
    after the last byte of its input. *)
Definition two_lines_heap : heap :=
  heap_of (text ("ab" ++ lf ++ "cd" ++ lf ++ "ef" ++ nul)).

(** The tokenizer stopped on the first byte of [cd]. *)
Definition parser_in_second_line : yaml_parser_t :=
  mkParser (Some "did not find expected key"%string) (a_mark 1 0) 0 3 8 1
    YAML_PARSE_BLOCK_NODE_STATE.

(** The tokenizer stopped on the line feed that ends [cd], with no token
    available, expecting a block mapping key. *)
Definition parser_at_line_end : yaml_parser_t :=
  mkParser (Some "did not find expected key"%string) (a_mark 1 2) 0 5 8 0
    YAML_PARSE_BLOCK_MAPPING_KEY_STATE.

(** A buffer [abc] with no line feed and no NUL in it; the bytes after
    it belong to something else. *)
Definition unterminated_heap : heap := heap_of (text ("abc" ++ "d" ++ nul)).

(** The same buffer at the very end of the address space: no byte, and so
    no NUL, after it. *)
Definition bare_heap : heap := heap_of (text "abc").

Definition parser_in_unterminated : yaml_parser_t :=
  mkParser (Some "did not find expected key"%string) (a_mark 0 1) 0 1 2 1
    YAML_PARSE_BLOCK_NODE_STATE.

(** [a], an empty line, [b]; the tokenizer stopped on the empty line. *)
Definition blank_line_heap : heap :=
  heap_of (text ("a" ++ lf ++ lf ++ "b" ++ lf ++ nul)).

Definition parser_on_blank_line : yaml_parser_t :=
  mkParser (Some "did not find expected key"%string) (a_mark 1 0) 0 2 5 1
    YAML_PARSE_BLOCK_MAPPING_KEY_STATE.

(** An empty first line, then [ab]; the tokenizer stopped on [a]. *)
Definition leading_line_feed_heap : heap :=
  heap_of (text (lf ++ "ab" ++ lf ++ nul)).

Definition parser_after_leading_line_feed : yaml_parser_t :=
  mkParser (Some "did not find expected key"%string) (a_mark 1 0) 0 1 4 1
    YAML_PARSE_BLOCK_MAPPING_KEY_STATE.

(** A key indented with two spaces and a tab; the tokenizer stopped on
    the tab. *)
Definition tab_indent_heap : heap :=
  heap_of (text ("  " ++ tab ++ "key: value" ++ lf ++ nul)).

Definition parser_on_tab : yaml_parser_t :=
  mkParser (Some "found character that cannot start any token"%string)
    (a_mark 0 2) 0 2 14 0 YAML_PARSE_BLOCK_MAPPING_KEY_STATE.

Definition one_line_file : list ascii := text ("first" ++ lf).
Definition one_line_fs : filesystem := fun _ => Readable one_line_file.

Definition five_line_file : list ascii :=
  text ("network:" ++ lf ++ "  version: 2" ++ lf ++ "  ethernets:" ++ lf
        ++ "    eth0:" ++ lf ++ "      dhcp4: maybe" ++ lf).
Definition five_line_fs : filesystem := fun _ => Readable five_line_file.

Definition net_yaml : NetplanParser := mkNetplanParser (Some "net.yaml"%string).

Definition twenty_byte_error : NetplanError :=
  mkGError 2 0 "Error in definition!".

Definition validation_error : NetplanError :=
  mkGError 2 1 "net.yaml: Error in network definition: bad".

Definition negative_code_error : NetplanError := mkGError 1 (-1) EmptyString.

(** A path that cannot be opened, with the error GIO reports for it. *)
Definition no_such_file : GError := mkGError 77 1 "No such file or directory".
Definition missing_fs : filesystem := fun _ => Unreadable no_such_file.

(** An error left in the slot by an earlier call. *)
Definition earlier_error : GError := mkGError 1 0 "earlier".

Definition three_lines : list (list ascii) :=
  [text "network:"; text "  version: 2"; text "  renderer: x"].
Definition three_lines_fs : filesystem :=
  fun _ => Readable (unlines three_lines ++ text "# end").

(** The last line of the input, [ef], ended by the NUL the tokenizer puts
    after its input; the tokenizer stopped on [f]. *)
Definition parser_in_last_line : yaml_parser_t :=
  mkParser (Some "did not find expected key"%string) (a_mark 2 1) 0 7 8 1
    YAML_PARSE_BLOCK_NODE_STATE.

(** A bound on every logged address follows from a tighter one. *)
Ltac weaken_range H := eapply Forall_impl; [exact H|]; simpl; intros; lia.

(** * Properties *)

(** ** Strings and C integers *)

Lemma string_app_assoc (a b c : string) : ((a ++ b) ++ c = a ++ (b ++ c))%string.
Proof. induction a as [|x a IH]; simpl; [done|]. by rewrite IH. Qed.

Lemma string_app_length (a b : string) :
  String.length (a ++ b) = (String.length a + String.length b)%nat.
Proof. induction a; simpl; congruence. Qed.

Lemma spaces_length n : String.length (spaces n) = n.
Proof. induction n; simpl; congruence. Qed.

Lemma text_length (s : string) : length (text s) = String.length s.
Proof. unfold text. induction s; simpl; congruence. Qed.

Lemma to_int_id z : is_gint z -> to_int z = z.
Proof.
  unfold is_gint, to_int, INT_MAX. intros Hz.
  rewrite Z.mod_small; lia.
Qed.

Lemma to_size_t_id z : 0 <= z < 2 ^ 64 -> to_size_t z = z.
Proof. intros Hz. unfold to_size_t. by rewrite Z.mod_small. Qed.

(** ** The caret renderer *)

Lemma append_spaces n : forall m : string,
  Nat.iter n (fun m => (m ++ " ")%string) m = (m ++ spaces n)%string.
Proof.
  induction n as [|n IH]; intros m.
  - simpl. induction m as [|c m IHm]; simpl; [done|]. by rewrite <- IHm.
  - by rewrite Nat.iter_succ_r, IH, string_app_assoc.
Qed.

Lemma write_error_marker_spaces message column :
  write_error_marker message column
  = (message ++ spaces (Z.to_nat column) ++ "^")%string.
Proof.
  unfold write_error_marker, for_loop. by rewrite append_spaces, string_app_assoc.
Qed.

(** X4: the caret renderer appends [column] spaces and one caret, and a
    column of zero (or a negative one) gives the caret alone. *)
Theorem caret_line (message : string) (column : Z) :
  write_error_marker message column
  = (message ++ spaces (Z.to_nat column) ++ "^")%string
  /\ write_error_marker EmptyString 0 = "^"%string
  /\ (column <= 0 -> write_error_marker EmptyString column = "^"%string).
Proof.
  split; [apply write_error_marker_spaces|]. split; [reflexivity|].
  intros Hneg. rewrite write_error_marker_spaces.
  by replace (Z.to_nat column) with O by lia.
Qed.

(** ** The file line locator *)

Lemma file_lines_split_line c s :
  file_lines (c :: s)
  = fst (split_line (c :: s)) :: file_lines (snd (split_line (c :: s))).
Proof.
  revert c. induction s as [|d s IH]; intros c.
  - simpl. by destruct (Ascii.eqb c LF).
  - cbn [file_lines split_line]. destruct (Ascii.eqb c LF); [done|].
    cbn [file_lines split_line] in IH. rewrite IH.
    destruct (Ascii.eqb d LF); [done|]. by destruct (split_line s).
Qed.

(** Reading [n + 1] lines and keeping the last one read gives line [n] of
    the file, and nothing when the file has no such line. *)
Lemma read_lines_nth n : forall content x,
  fst (Nat.iter (S n) read_next (x, Some content)) = file_lines content !! n.
Proof.
  induction n as [|n IH]; intros content x.
  - simpl. unfold read_next. simpl. destruct content as [|c s]; [done|].
    rewrite file_lines_split_line. by destruct (split_line (c :: s)).
  - rewrite Nat.iter_succ_r. unfold read_next at 2. simpl snd.
    destruct content as [|c s].
    + simpl g_data_input_stream_read_line. by rewrite IH.
    + rewrite file_lines_split_line.
      unfold g_data_input_stream_read_line.
      destruct (split_line (c :: s)) as [l r]. by rewrite IH.
Qed.

Lemma syntax_error_line_nth content line_num :
  0 <= line_num -> line_num + 1 <= INT_MAX ->
  syntax_error_line (Some content) line_num = file_lines content !! Z.to_nat line_num.
Proof.
  intros H0 Hmax. unfold syntax_error_line, for_loop.
  rewrite to_int_id by (unfold is_gint, INT_MAX in *; lia).
  replace (Z.to_nat (line_num + 1)) with (S (Z.to_nat line_num)) by lia.
  apply read_lines_nth.
Qed.

Lemma syntax_error_line_short content line_num :
  is_gint line_num ->
  Z.of_nat (length (file_lines content)) < line_num + 1 ->
  syntax_error_line (Some content) line_num = None.
Proof.
  intros Hint Hshort.
  destruct (decide (line_num = INT_MAX)) as [->|Hne]; [reflexivity|].
  assert (Hmax : line_num + 1 <= INT_MAX) by (unfold is_gint in Hint; lia).
  destruct (decide (0 <= line_num)) as [Hpos|Hneg].
  - rewrite syntax_error_line_nth by done. apply lookup_ge_None. lia.
  - unfold syntax_error_line, for_loop.
    rewrite to_int_id by (unfold is_gint, INT_MAX in *; lia).
    by replace (Z.to_nat (line_num + 1)) with O by lia.
Qed.




(** ** Semantic errors *)

Lemma spec_semantic_message_length path L C msg line :
  (Z.to_nat C <= String.length (spec_semantic_message path L C msg line))%nat.
Proof.
  unfold spec_semantic_message.
  rewrite !string_app_length, spaces_length. lia.
Qed.

(** C5 (as claimed, refuted): a node at column 2^31 of the first line.
    The column reaches the locator as a negative [int], the caret line
    has no leading space, and the message is not the claimed one. *)
Lemma huge_column_gets_no_spaces :
  exists e,
    yaml_error netplan_enums one_line_fs net_yaml
      (Some (mkNode (a_mark 0 2147483648) (a_mark 0 2147483649))) None "bad"
    = (FALSE, Some e)
    /\ message e = ("net.yaml:1:2147483649: Error in network definition: bad" ++ lf
                    ++ "first" ++ lf ++ "^")%string
    /\ message e <> spec_semantic_message "net.yaml" 0 2147483648 "bad" "first".
Proof.
  eexists. split; [vm_compute; reflexivity|]. split; [reflexivity|].
  intros Heq.
  pose proof (spec_semantic_message_length "net.yaml" 0 2147483648 "bad" "first") as Hlen.
  rewrite <- Heq in Hlen. clear Heq.
  set (n := Z.to_nat 2147483648) in Hlen.
  assert (Hn : (100 <= n)%nat) by (subst n; lia).
  clearbody n. vm_compute in Hlen. lia.
Qed.

(** C5 (amended): for a node at line [L], column [C], both 0-based and with
    [L + 1] and [C] no larger than [INT_MAX], and a path whose file has at
    least [L + 1] lines, the error is a parser error with the invalid-config
    code and the message
    [<path>:<L+1>:<C+1>: Error in network definition: <msg>], a line feed,
    line [L + 1] of the file as [%s] prints it (the line read last after
    [L + 1] reads, up to its first NUL if it has one), a line feed, and a
    caret line of [C] spaces and a caret. *)
Theorem yaml_error_positional (E : error_enums) fs path content idx L C em msg :
  fs path = Readable content ->
  0 <= L -> L + 1 <= INT_MAX ->
  0 <= C <= INT_MAX ->
  L + 1 <= Z.of_nat (length (file_lines content)) ->
  exists ln,
    file_lines content !! Z.to_nat L = Some ln
    /\ syntax_error_line (Some content) L = Some ln
    /\ yaml_error E fs (mkNetplanParser (Some path))
         (Some (mkNode (mkMark idx L C) em)) None msg
       = (FALSE,
          Some (mkGError (NETPLAN_PARSER_ERROR E) (NETPLAN_ERROR_INVALID_CONFIG E)
                  (spec_semantic_message path L C msg (c_str ln)))).
Proof.
  intros Hfs HL HLmax HC Hlines.
  destruct (lookup_lt_is_Some_2 (file_lines content) (Z.to_nat L)) as [ln Hln]; [lia|].
  exists ln. split; [done|].
  pose proof (syntax_error_line_nth content L HL HLmax) as Hline.
  rewrite Hln in Hline. split; [done|].
  unfold yaml_error, get_syntax_error_context, g_file_read. simpl.
  rewrite Hfs.
  rewrite !to_int_id by (unfold is_gint, INT_MAX in *; lia).
  rewrite Hline. simpl.
  rewrite !to_size_t_id by (unfold INT_MAX in *; lia).
  rewrite write_error_marker_spaces. unfold spec_semantic_message.
  by rewrite !string_app_assoc.
Qed.

Lemma yaml_error_positional_witness :
  exists ln,
    file_lines five_line_file !! Z.to_nat 4 = Some ln
    /\ syntax_error_line (Some five_line_file) 4 = Some ln
    /\ yaml_error netplan_enums five_line_fs (mkNetplanParser (Some "net.yaml"%string))
         (Some (mkNode (mkMark 0 4 10) (a_mark 4 11))) None "invalid boolean value"
       = (FALSE,
          Some (mkGError (NETPLAN_PARSER_ERROR netplan_enums)
                  (NETPLAN_ERROR_INVALID_CONFIG netplan_enums)
                  (spec_semantic_message "net.yaml" 4 10 "invalid boolean value"
                     (c_str ln)))).
Proof.
  apply (yaml_error_positional netplan_enums five_line_fs "net.yaml" five_line_file).
  - reflexivity.
  - lia.
  - unfold INT_MAX. lia.
  - unfold INT_MAX. lia.
  - vm_compute. discriminate.
Defined.

(** The message of the example: line 5, column 11 of [net.yaml]. *)
Example yaml_error_net_yaml_5_11 :
  snd (yaml_error netplan_enums five_line_fs net_yaml
         (Some (mkNode (mkMark 0 4 10) (a_mark 4 11))) None "invalid boolean value")
  = Some (mkGError 1 1
            ("net.yaml:5:11: Error in network definition: invalid boolean value" ++ lf
             ++ "      dhcp4: maybe" ++ lf
             ++ "          ^")%string).
Proof. reflexivity. Qed.

(** C6: a semantic error raised without a node position, into an empty
    error slot: with a file path the message is exactly
    [<path>: Error in network definition: <msg>], nothing after it, in the
    validation domain with the config-validation code; with no path it is
    exactly [Error in network definition: <msg>], in the validation domain
    with the generic code. *)
Theorem yaml_error_without_node (E : error_enums) fs path msg :
  yaml_error E fs (mkNetplanParser (Some path)) None None msg
  = (FALSE,
     Some (mkGError (NETPLAN_VALIDATION_ERROR E) (NETPLAN_ERROR_CONFIG_VALIDATION E)
             (path ++ ": Error in network definition: " ++ msg)%string))
  /\ yaml_error E fs (mkNetplanParser None) None None msg
     = (FALSE,
        Some (mkGError (NETPLAN_VALIDATION_ERROR E) (NETPLAN_ERROR_CONFIG_GENERIC E)
                ("Error in network definition: " ++ msg)%string)).
Proof. split; reflexivity. Qed.

(** ** Memory accesses *)

Local Open Scope nat_scope.

Lemma logged_app h l1 l2 : logged (logged h l1) l2 = logged h (l2 ++ l1).
Proof. unfold logged; simpl. by rewrite app_assoc. Qed.

Lemma load_run h a b :
  bytes h !! a = Some b -> load a h = Done b (logged h [a]).
Proof. intros Hb. unfold load. by rewrite Hb. Qed.

Lemma store_run h a b :
  a < length (bytes h) ->
  store a b h = Done tt (mkHeap (<[a:=b]> (bytes h)) (loads h) (a :: stores h)).
Proof. intros Ha. unfold store. by rewrite decide_True. Qed.

(** The backward scan reads only between [start] and [current]; it stops
    below the nearest line feed before [current], or at [start]. *)
Lemma scan_back_run start line current h :
  current <= length (bytes h) ->
  exists c l new,
    scan_back start current line h = Done (c, l) (logged h new)
    /\ Forall (fun a => start <= a < current) new
    /\ ((c <= start /\ l = line
         /\ forall a, start <= a < current -> bytes h !! a <> Some LF)
        \/ (start <= c < current /\ l = S c /\ bytes h !! c = Some LF
            /\ forall a, c < a < current -> bytes h !! a <> Some LF)).
Proof.
  revert h. induction current as [|c IH]; intros h Hlen.
  - exists 0, line, []. split; [by destruct h|]. split; [constructor|].
    left. split; [lia|]. split; [done|]. intros a Ha; lia.
  - simpl. destruct (decide (start < S c)) as [Hlt|Hge].
    + destruct (lookup_lt_is_Some_2 (bytes h) c) as [b Hb]; [lia|].
      unfold bind. rewrite (load_run _ _ _ Hb).
      destruct (Ascii.eqb b LF) eqn:Hnl.
      * apply Ascii.eqb_eq in Hnl. subst b.
        exists c, (S c), [c]. split; [done|]. split.
        { constructor; [lia|constructor]. }
        right. split; [lia|]. split; [done|]. split; [done|]. intros a Ha; lia.
      * apply Ascii.eqb_neq in Hnl.
        destruct (IH (logged h [c])) as (c' & l' & new & Hrun & Hnew & Hpost);
          [simpl; lia|].
        exists c', l', (new ++ [c]). rewrite Hrun, logged_app. split; [done|]. split.
        { apply Forall_app. split; [weaken_range Hnew|].
          constructor; [lia|constructor]. }
        simpl in Hpost. destruct Hpost as [(Hc & Hl & Hno)|(Hc & Hl & Hlf & Hno)].
        -- left. split; [done|]. split; [done|]. intros a Ha.
           destruct (decide (a = c)) as [->|Hne]; [congruence|]. apply Hno; lia.
        -- right. split; [lia|]. split; [done|]. split; [done|]. intros a Ha.
           destruct (decide (a = c)) as [->|Hne]; [congruence|]. apply Hno; lia.
    + exists (S c), line, []. split; [by destruct h|]. split; [constructor|].
      left. split; [lia|]. split; [done|]. intros a Ha; lia.
Qed.

(** The forward scan reads only the [n] addresses from [current]; it
    changes nothing, or writes a NUL over the first line feed among them. *)
Lemma scan_fwd_run n current h :
  current + n <= length (bytes h) ->
  exists new,
    Forall (fun a => current <= a < current + n) new
    /\ ((scan_fwd n current h = Done tt (logged h new)
         /\ forall a, current <= a < current + n -> bytes h !! a <> Some LF)
        \/ (exists k, current <= k < current + n /\ bytes h !! k = Some LF
            /\ (forall a, current <= a < k -> bytes h !! a <> Some LF)
            /\ scan_fwd n current h =
               Done tt (mkHeap (<[k:=NUL]> (bytes h)) (new ++ loads h) (k :: stores h)))).
Proof.
  revert current h. induction n as [|n IH]; intros current h Hlen.
  - exists []. split; [constructor|]. left. split; [by destruct h|]. intros a Ha; lia.
  - simpl. destruct (lookup_lt_is_Some_2 (bytes h) current) as [b Hb]; [lia|].
    unfold bind. rewrite (load_run _ _ _ Hb).
    destruct (Ascii.eqb b LF) eqn:Hnl.
    + apply Ascii.eqb_eq in Hnl. subst b.
      exists [current]. split; [constructor; [lia|constructor]|].
      right. exists current. split; [lia|]. split; [done|].
      split; [intros a Ha; lia|]. rewrite store_run; [done|simpl; lia].
    + apply Ascii.eqb_neq in Hnl.
      destruct (IH (S current) (logged h [current])) as (new & Hnew & Hpost);
        [simpl; lia|].
      exists (new ++ [current]). split.
      { apply Forall_app. split; [weaken_range Hnew|].
        constructor; [lia|constructor]. }
      simpl in Hpost. destruct Hpost as [(Hrun & Hno)|(k & Hk & Hlf & Hno & Hrun)].
      * left. rewrite Hrun, logged_app. split; [done|]. intros a Ha.
        destruct (decide (a = current)) as [->|Hne]; [congruence|]. apply Hno; lia.
      * right. exists k. rewrite Hrun. split; [lia|]. split; [done|]. split.
        -- intros a Ha.
           destruct (decide (a = current)) as [->|Hne]; [congruence|]. apply Hno; lia.
        -- by rewrite <- app_assoc.
Qed.

(** With a NUL at [k], at or after [a], reading the string at [a] returns
    the bytes before the first NUL and reads nothing after [k]. *)
Lemma load_string_from_run fuel a h k :
  fuel = length (bytes h) - a ->
  a <= k ->
  bytes h !! k = Some NUL ->
  exists new,
    load_string_from fuel a h = Done (c_str (drop a (bytes h))) (logged h new)
    /\ Forall (fun x => a <= x <= k) new.
Proof.
  revert a h. induction fuel as [|fuel IH]; intros a h Hfuel Hak Hk.
  - apply lookup_lt_Some in Hk. lia.
  - pose proof (lookup_lt_Some _ _ _ Hk) as Hklen.
    destruct (lookup_lt_is_Some_2 (bytes h) a) as [c Hc]; [lia|].
    simpl. unfold bind. rewrite (load_run _ _ _ Hc).
    rewrite (drop_S _ _ _ Hc). simpl.
    destruct (Ascii.eqb c NUL) eqn:Hnul.
    + exists [a]. split; [done|]. constructor; [lia|constructor].
    + apply Ascii.eqb_neq in Hnul.
      assert (a <> k) by (intros ->; congruence).
      destruct (IH (S a) (logged h [a])) as (new & Hrun & Hnew);
        [simpl; lia|lia|done|].
      rewrite Hrun. unfold ret. rewrite logged_app. simpl.
      exists (new ++ [a]). split; [done|].
      apply Forall_app. split; [weaken_range Hnew|].
      constructor; [lia|constructor].
Qed.

Lemma load_string_run a h k :
  a <= k ->
  bytes h !! k = Some NUL ->
  exists new,
    load_string a h = Done (c_str (drop a (bytes h))) (logged h new)
    /\ Forall (fun x => a <= x <= k) new.
Proof. intros. unfold load_string. by eapply load_string_from_run. Qed.

(** ** The buffer line locator *)

Lemma locate_line_run parser h :
  buffer_start parser <= buffer_pointer parser ->
  buffer_pointer parser < length (bytes h) ->
  buffer_last parser < length (bytes h) ->
  exists line new,
    Forall (fun a => buffer_start parser <= a
                     /\ (a < buffer_pointer parser \/ a <= buffer_last parser)) new
    /\ ((line = buffer_start parser
         /\ forall a, buffer_start parser < a < buffer_pointer parser ->
                      bytes h !! a <> Some LF)
        \/ (buffer_start parser < line <= buffer_pointer parser
            /\ bytes h !! (line - 1) = Some LF
            /\ forall a, line <= a < buffer_pointer parser ->
                         bytes h !! a <> Some LF))
    /\ ((locate_line parser h = Done line (logged h new)
         /\ forall a, line < a <= buffer_last parser -> bytes h !! a <> Some LF)
        \/ (exists j, line < j <= buffer_last parser
            /\ bytes h !! j = Some LF
            /\ (forall a, line < a < j -> bytes h !! a <> Some LF)
            /\ locate_line parser h =
               Done line (mkHeap (<[j:=NUL]> (bytes h)) (new ++ loads h) (j :: stores h)))).
Proof.
  intros Hsp Hp Hl. unfold locate_line, bind.
  destruct (scan_back_run (buffer_start parser) (buffer_pointer parser)
              (buffer_pointer parser) h) as (c & l & new1 & Hrun & Hnew1 & Hpost); [lia|].
  rewrite Hrun. simpl fst; simpl snd.
  set (line := if decide (c <= buffer_start parser) then buffer_start parser else l).
  assert (Hline : buffer_start parser <= line <= buffer_pointer parser).
  { subst line. destruct (decide (c <= buffer_start parser)); [lia|].
    destruct Hpost as [(? & _)|(? & -> & _)]; lia. }
  assert (Hchar : (line = buffer_start parser
         /\ forall a, buffer_start parser < a < buffer_pointer parser ->
                      bytes h !! a <> Some LF)
        \/ (buffer_start parser < line <= buffer_pointer parser
            /\ bytes h !! (line - 1) = Some LF
            /\ forall a, line <= a < buffer_pointer parser ->
                         bytes h !! a <> Some LF)).
  { subst line. destruct (decide (c <= buffer_start parser)) as [Hc|Hc].
    - left. split; [done|]. intros a Ha.
      destruct Hpost as [(_ & _ & Hno)|(_ & _ & _ & Hno)]; apply Hno; lia.
    - right. destruct Hpost as [(? & _)|(? & -> & Hlf & Hno)]; [lia|].
      split; [lia|]. split.
      + by replace (S c - 1) with c by lia.
      + intros a Ha. apply Hno; lia. }
  destruct (scan_fwd_run (S (buffer_last parser) - (line + 1)) (line + 1) (logged h new1))
    as (new2 & Hnew2 & Hfwd); [simpl; lia|].
  exists line, (new2 ++ new1). split.
  { apply Forall_app. split; [weaken_range Hnew2|weaken_range Hnew1]. }
  split; [exact Hchar|].
  destruct Hfwd as [(Hrun2 & Hno)|(j & Hj & Hlf & Hno & Hrun2)].
  - left. rewrite Hrun2. unfold ret. rewrite logged_app. split; [done|].
    intros a Ha. apply Hno. lia.
  - right. exists j. rewrite Hrun2. unfold ret. simpl.
    split; [lia|]. split; [done|]. split; [intros a Ha; apply Hno; lia|].
    by rewrite app_assoc.
Qed.

(** What a run of the locator does, when a terminator [k] stands at or after
    the pointer: a NUL anywhere, or a line feed within the buffer that the
    forward scan reaches.  It returns the C string at the line it located;
    it reads from the buffer start on and not past [k] or the buffer's last
    byte; and the bytes are unchanged, or the first line feed after the
    line's first byte has become a NUL. *)
Lemma get_parser_error_context_run parser h k :
  buffer_start parser <= buffer_pointer parser ->
  buffer_last parser < length (bytes h) ->
  buffer_pointer parser <= k ->
  bytes h !! k = Some NUL
  \/ (k <= buffer_last parser /\ bytes h !! k = Some LF
      /\ (k = buffer_pointer parser ->
          buffer_start parser < buffer_pointer parser
          /\ bytes h !! (buffer_pointer parser - 1) <> Some LF)) ->
  exists line new h',
    get_parser_error_context parser h =
      Done (write_error_marker (c_str (drop line (bytes h')) ++ String LF EmptyString)
              (to_int (mark_column (problem_mark parser)))) h'
    /\ loads h' = new ++ loads h
    /\ Forall (fun a => buffer_start parser <= a
                 /\ (a < buffer_pointer parser \/ a <= buffer_last parser \/ a <= k)) new
    /\ ((line = buffer_start parser
         /\ forall a, buffer_start parser < a < buffer_pointer parser ->
                      bytes h !! a <> Some LF)
        \/ (buffer_start parser < line <= buffer_pointer parser
            /\ bytes h !! (line - 1) = Some LF
            /\ forall a, line <= a < buffer_pointer parser ->
                         bytes h !! a <> Some LF))
    /\ ((bytes h' = bytes h /\ stores h' = stores h
         /\ forall a, line < a <= buffer_last parser -> bytes h !! a <> Some LF)
        \/ (exists j, line < j <= buffer_last parser
            /\ bytes h !! j = Some LF
            /\ (forall a, line < a < j -> bytes h !! a <> Some LF)
            /\ bytes h' = <[j:=NUL]> (bytes h) /\ stores h' = j :: stores h)).
Proof.
  intros Hsp Hl Hk Hterm.
  assert (Hp : buffer_pointer parser < length (bytes h)).
  { destruct Hterm as [Hn|(? & Hn & _)]; apply lookup_lt_Some in Hn; lia. }
  destruct (locate_line_run parser h Hsp Hp Hl) as (line & new1 & Hnew1 & Hchar & Hloc).
  assert (Hline : buffer_start parser <= line <= buffer_pointer parser).
  { destruct Hchar as [(-> & _)|(? & _)]; lia. }
  unfold get_parser_error_context, bind.
  destruct Hloc as [(Hrun & Hno)|(j & Hj & Hlf & Hno & Hrun)]; rewrite Hrun.
  - assert (Hnul : bytes h !! k = Some NUL).
    { destruct Hterm as [?|(? & Hlf & Hat)]; [done|]. exfalso.
      apply (Hno k); [|done].
      destruct (decide (k = buffer_pointer parser)) as [Heq|?]; [|lia].
      destruct (Hat Heq) as [? Hprev].
      destruct Hchar as [(-> & _)|(? & Hlf' & _)]; [lia|].
      destruct (decide (line = buffer_pointer parser)) as [->|?]; [done|lia]. }
    destruct (load_string_run line (logged h new1) k) as (new2 & Hrun2 & Hnew2);
      [lia|done|].
    rewrite Hrun2. unfold ret. rewrite logged_app.
    exists line, (new2 ++ new1), (logged h (new2 ++ new1)). split; [done|]. split; [done|].
    split.
    { apply Forall_app. split; [weaken_range Hnew2|weaken_range Hnew1]. }
    split; [exact Hchar|]. left. done.
  - set (h1 := mkHeap (<[j:=NUL]> (bytes h)) (new1 ++ loads h) (j :: stores h)).
    destruct (load_string_run line h1 j) as (new2 & Hrun2 & Hnew2); [lia| |].
    { simpl. apply list_lookup_insert_eq. lia. }
    rewrite Hrun2. unfold ret.
    exists line, (new2 ++ new1), (logged h1 new2). split; [done|]. split.
    { simpl. by rewrite app_assoc. }
    split.
    { apply Forall_app. split; [weaken_range Hnew2|weaken_range Hnew1]. }
    split; [exact Hchar|]. right. exists j. done.
Qed.

(** C4 (as claimed, refuted): with the tokenizer on the first byte of the
    second line, the locator returns and the line feed at address 5, inside
    the buffer, has become a NUL. *)
Lemma locator_overwrites_line_feed :
  exists msg h',
    get_parser_error_context parser_in_second_line two_lines_heap = Done msg h'
    /\ buffer_start parser_in_second_line <= 5 <= buffer_last parser_in_second_line
    /\ bytes two_lines_heap !! 5 = Some LF
    /\ bytes h' !! 5 = Some NUL.
Proof. vm_compute. eexists _, _. repeat split; lia. Qed.

(** C4 (amended): on a buffer with a terminator at or after the pointer
    (a NUL, or a line feed after the pointer and up to [buffer_last]), the
    locator returns, as a string of its own, the C string that stands at
    the line it located once it has run, and leaves every byte as it was,
    except at most one: the first line feed after the first byte of the
    located line is overwritten with a NUL whenever there is one up to
    [buffer_last]; when there is none, nothing is written. *)
Theorem get_parser_error_context_frame parser h k :
  buffer_start parser <= buffer_pointer parser ->
  buffer_last parser < length (bytes h) ->
  buffer_pointer parser <= k ->
  bytes h !! k = Some NUL
  \/ (buffer_pointer parser < k <= buffer_last parser /\ bytes h !! k = Some LF) ->
  exists line h0 msg h',
    locate_line parser h = Done line h0
    /\ get_parser_error_context parser h = Done msg h'
    /\ msg = write_error_marker
               (c_str (drop line (bytes h')) ++ String LF EmptyString)
               (to_int (mark_column (problem_mark parser)))
    /\ buffer_start parser <= line <= buffer_pointer parser
    /\ (((forall a, line < a <= buffer_last parser -> bytes h !! a <> Some LF)
         /\ bytes h' = bytes h /\ stores h' = stores h)
        \/ exists j, line < j <= buffer_last parser
             /\ bytes h !! j = Some LF
             /\ (forall a, line < a < j -> bytes h !! a <> Some LF)
             /\ bytes h' = <[j:=NUL]> (bytes h)
             /\ bytes h' !! j = Some NUL
             /\ stores h' = j :: stores h
             /\ forall i, i <> j -> bytes h' !! i = bytes h !! i).
Proof.
  intros Hsp Hl Hk Hterm.
  assert (Hp : buffer_pointer parser < length (bytes h)).
  { destruct Hterm as [Hn|(? & Hn)]; apply lookup_lt_Some in Hn; lia. }
  destruct (locate_line_run parser h Hsp Hp Hl) as (line & new1 & _ & Hchar & Hloc).
  assert (Hline : buffer_start parser <= line <= buffer_pointer parser).
  { destruct Hchar as [(-> & _)|(? & _)]; lia. }
  unfold get_parser_error_context, bind.
  destruct Hloc as [(Hrun & Hno)|(j & Hj & Hlf & Hno & Hrun)]; rewrite Hrun.
  - assert (Hnul : bytes h !! k = Some NUL).
    { destruct Hterm as [?|(? & Hlf)]; [done|]. exfalso. apply (Hno k); [lia|done]. }
    destruct (load_string_run line (logged h new1) k) as (new2 & Hrun2 & _);
      [lia|done|].
    rewrite Hrun2. unfold ret.
    eexists line, _, _, _. split; [reflexivity|]. split; [reflexivity|].
    split; [reflexivity|]. split; [exact Hline|]. left. done.
  - set (h1 := mkHeap (<[j:=NUL]> (bytes h)) (new1 ++ loads h) (j :: stores h)).
    destruct (load_string_run line h1 j) as (new2 & Hrun2 & _); [lia| |].
    { simpl. apply list_lookup_insert_eq. lia. }
    rewrite Hrun2. unfold ret.
    eexists line, _, _, _. split; [reflexivity|]. split; [reflexivity|].
    split; [reflexivity|]. split; [exact Hline|]. right. exists j. simpl.
    split; [done|]. split; [done|]. split; [done|]. split; [done|].
    split; [apply list_lookup_insert_eq; lia|]. split; [done|].
    intros i Hi. by apply list_lookup_insert_ne.
Qed.

Lemma get_parser_error_context_frame_witness :
  exists line h0 msg h',
    locate_line parser_in_second_line two_lines_heap = Done line h0
    /\ get_parser_error_context parser_in_second_line two_lines_heap = Done msg h'
    /\ msg = write_error_marker
               (c_str (drop line (bytes h')) ++ String LF EmptyString)
               (to_int (mark_column (problem_mark parser_in_second_line)))
    /\ buffer_start parser_in_second_line <= line
       <= buffer_pointer parser_in_second_line
    /\ (((forall a, line < a <= buffer_last parser_in_second_line ->
                    bytes two_lines_heap !! a <> Some LF)
         /\ bytes h' = bytes two_lines_heap /\ stores h' = stores two_lines_heap)
        \/ exists j, line < j <= buffer_last parser_in_second_line
             /\ bytes two_lines_heap !! j = Some LF
             /\ (forall a, line < a < j -> bytes two_lines_heap !! a <> Some LF)
             /\ bytes h' = <[j:=NUL]> (bytes two_lines_heap)
             /\ bytes h' !! j = Some NUL
             /\ stores h' = j :: stores two_lines_heap
             /\ forall i, i <> j -> bytes h' !! i = bytes two_lines_heap !! i).
Proof.
  apply (get_parser_error_context_frame parser_in_second_line two_lines_heap 8).
  - vm_compute; lia.
  - vm_compute; lia.
  - vm_compute; lia.
  - left. reflexivity.
Defined.

(** C7 (the code at the failing input): the buffer is [abc], addresses 0 to
    2, with no line feed and no NUL after the pointer.  The locator reads
    the bytes at addresses 3 and 4, past [buffer_last], and the text it
    returns holds the byte at address 3. *)
Theorem locator_reads_past_buffer_last :
  exists h',
    get_parser_error_context parser_in_unterminated unterminated_heap
      = Done ("abcd" ++ lf ++ " ^")%string h'
    /\ In 3 (loads h') /\ In 4 (loads h')
    /\ buffer_last parser_in_unterminated < 3.
Proof.
  eexists. split; [vm_compute; reflexivity|]. simpl.
  split; [|split]; [tauto|tauto|vm_compute; lia].
Qed.

(** X3: with the pointer inside the buffer and a terminator between the
    pointer and [buffer_last] (a NUL at or after the pointer, or a line
    feed after it), the locator faults nowhere and every address it reads
    or writes lies between [buffer_start] and [buffer_last]; this covers a
    pointer at [buffer_start] and at [buffer_last]. *)
Theorem get_parser_error_context_in_bounds parser h k :
  buffer_start parser <= buffer_pointer parser ->
  buffer_pointer parser <= buffer_last parser ->
  buffer_last parser < length (bytes h) ->
  buffer_pointer parser <= k <= buffer_last parser ->
  bytes h !! k = Some NUL
  \/ (buffer_pointer parser < k /\ bytes h !! k = Some LF) ->
  exists msg new h',
    get_parser_error_context parser h = Done msg h'
    /\ loads h' = new ++ loads h
    /\ Forall (fun a => buffer_start parser <= a <= buffer_last parser) new
    /\ (stores h' = stores h
        \/ exists j, buffer_start parser <= j <= buffer_last parser
                     /\ stores h' = j :: stores h).
Proof.
  intros Hsp Hpl Hl Hk Hterm.
  destruct (get_parser_error_context_run parser h k Hsp Hl) as
    (line & new & h' & Hrun & Hloads & Hnew & Hchar & Hframe); [lia| |].
  { destruct Hterm as [?|[? ?]]; [by left|right]. split; [lia|]. split; [done|lia]. }
  eexists _, new, h'. split; [exact Hrun|]. split; [done|]. split.
  - weaken_range Hnew.
  - destruct Hframe as [(_ & Hst & _)|(j & Hj & _ & _ & _ & Hst)]; [by left|].
    right. exists j. split; [|done].
    destruct Hchar as [(-> & _)|(? & _)]; lia.
Qed.

Lemma get_parser_error_context_in_bounds_witness :
  exists msg new h',
    get_parser_error_context parser_in_second_line two_lines_heap = Done msg h'
    /\ loads h' = new ++ loads two_lines_heap
    /\ Forall (fun a => buffer_start parser_in_second_line <= a
                        <= buffer_last parser_in_second_line) new
    /\ (stores h' = stores two_lines_heap
        \/ exists j, buffer_start parser_in_second_line <= j
                     <= buffer_last parser_in_second_line
                     /\ stores h' = j :: stores two_lines_heap).
Proof.
  apply (get_parser_error_context_in_bounds parser_in_second_line two_lines_heap 5).
  - vm_compute; lia.
  - vm_compute; lia.
  - vm_compute; lia.
  - vm_compute; lia.
  - right. split; [vm_compute; lia|reflexivity].
Defined.

(** ** The located line against the specified one *)

Lemma line_feed_at_true mem a : line_feed_at mem a = true <-> mem !! a = Some LF.
Proof.
  unfold line_feed_at. destruct (mem !! a) as [c|]; [|split; discriminate].
  rewrite Ascii.eqb_eq. split; congruence.
Qed.

Lemma line_feed_at_false mem a : line_feed_at mem a = false <-> mem !! a <> Some LF.
Proof.
  rewrite <- line_feed_at_true. destruct (line_feed_at mem a); split; congruence.
Qed.

Lemma spec_line_begin_char mem start p :
  start <= p ->
  let b := spec_line_begin mem start p in
  start <= b <= p
  /\ (forall a, b <= a < p -> mem !! a <> Some LF)
  /\ (b = start \/ (start < b /\ mem !! (b - 1) = Some LF)).
Proof.
  induction p as [|q IH]; intros Hsp; simpl.
  - split; [lia|]. split; [intros a Ha; lia|]. by left.
  - destruct (decide (start < S q)) as [Hlt|Hge].
    + destruct (line_feed_at mem q) eqn:Hq.
      * apply line_feed_at_true in Hq.
        split; [lia|]. split; [intros a Ha; lia|].
        right. split; [lia|]. by replace (S q - 1) with q by lia.
      * apply line_feed_at_false in Hq.
        destruct IH as (Hb & Hno & Hprev); [lia|].
        split; [lia|]. split; [|done].
        intros a Ha. destruct (decide (a = q)) as [->|?]; [done|]. apply Hno. lia.
    + split; [lia|]. split; [intros a Ha; lia|]. by left.
Qed.

Lemma spec_line_end_char mem n : forall j,
  let e := spec_line_end mem n j in
  j <= e <= j + n
  /\ (forall a, j <= a < e -> mem !! a <> Some LF)
  /\ (e < j + n -> mem !! e = Some LF).
Proof.
  induction n as [|n IH]; intros j; simpl.
  - split; [lia|]. split; intros; lia.
  - destruct (line_feed_at mem j) eqn:Hj.
    + apply line_feed_at_true in Hj.
      split; [lia|]. split; [intros a Ha; lia|done].
    + apply line_feed_at_false in Hj.
      destruct (IH (S j)) as (He & Hno & Hlast).
      split; [lia|]. split.
      * intros a Ha. destruct (decide (a = j)) as [->|?]; [done|]. apply Hno. lia.
      * intros Hlt. apply Hlast. lia.
Qed.

Lemma c_str_cut (l : list ascii) : forall k,
  k < length l ->
  (forall a, a < k -> l !! a <> Some NUL) ->
  c_str (<[k:=NUL]> l) = string_of_list_ascii (take k l).
Proof.
  induction l as [|c l IH]; intros k Hk Hno; simpl in Hk; [lia|].
  destruct k as [|k]; simpl; [done|].
  destruct (Ascii.eqb c NUL) eqn:Hc.
  - apply Ascii.eqb_eq in Hc. subst c. exfalso. apply (Hno 0); [lia|done].
  - f_equal. apply IH; [lia|]. intros a Ha. apply (Hno (S a)). lia.
Qed.

(** C2 (the code at two failing inputs): with the pointer on an empty
    line, the line containing it is empty, and the locator returns the line
    feed and the next line, [b]; with the pointer in a line that follows a
    line feed stored at [buffer_start], the line is [ab], and the locator
    returns that line feed and [ab]. *)
Theorem locator_returns_two_lines_for_blank_line :
  spec_line (bytes blank_line_heap) 0 2 5 = []
  /\ (exists h', get_parser_error_context parser_on_blank_line blank_line_heap
                 = Done (lf ++ "b" ++ lf ++ "^")%string h')
  /\ spec_line (bytes leading_line_feed_heap) 0 1 4 = text "ab"
  /\ (exists h', get_parser_error_context parser_after_leading_line_feed
                   leading_line_feed_heap
                 = Done (lf ++ "ab" ++ lf ++ "^")%string h').
Proof.
  split; [reflexivity|]. split; [eexists; vm_compute; reflexivity|].
  split; [reflexivity|]. eexists; vm_compute; reflexivity.
Qed.

(** X2: when the line containing the pointer is not empty, does not begin
    right after a line feed stored at [buffer_start], holds no NUL and ends
    at a line feed within the buffer, the locator returns exactly that
    line: from the byte after the nearest line feed before the pointer (or
    from [buffer_start]) up to the next line feed, which it replaces by a
    NUL. *)
Theorem locator_returns_the_line parser h :
  let mem := bytes h in
  let b := spec_line_begin mem (buffer_start parser) (buffer_pointer parser) in
  let e := spec_line_end mem (S (buffer_last parser) - b) b in
  buffer_start parser <= buffer_pointer parser <= buffer_last parser ->
  buffer_last parser < length mem ->
  b <> S (buffer_start parser) ->
  mem !! b <> Some LF ->
  e <= buffer_last parser ->
  (forall a, b <= a < e -> mem !! a <> Some NUL) ->
  exists h',
    get_parser_error_context parser h =
      Done (write_error_marker
              (string_of_list_ascii
                 (spec_line mem (buffer_start parser) (buffer_pointer parser)
                    (buffer_last parser)) ++ String LF EmptyString)
              (to_int (mark_column (problem_mark parser)))) h'
    /\ bytes h' = <[e:=NUL]> mem.
Proof.
  intros mem b e Hsp Hl Hslip Hfirst He Hnonul.
  destruct (spec_line_begin_char mem (buffer_start parser) (buffer_pointer parser))
    as (Hb & Hb_no & Hb_prev); [lia|]. fold b in Hb, Hb_no, Hb_prev.
  destruct (spec_line_end_char mem (S (buffer_last parser) - b) b)
    as (He' & He_no & He_lf). fold e in He', He_no, He_lf.
  assert (Hlf : mem !! e = Some LF) by (apply He_lf; lia).
  assert (Hbe : b < e).
  { destruct (decide (e = b)) as [Heq|?]; [|lia]. rewrite Heq in Hlf. done. }
  assert (Hpe : buffer_pointer parser <= e).
  { destruct (decide (buffer_pointer parser <= e)); [done|].
    exfalso. apply (Hb_no e); [lia|done]. }
  destruct (get_parser_error_context_run parser h e) as
    (line & new & h' & Hrun & _ & _ & Hchar & Hframe); [lia|exact Hl|exact Hpe| |].
  { right. split; [done|]. split; [done|]. intros ->. split; [lia|].
    apply Hb_no. lia. }
  assert (Hline : line = b).
  { destruct Hchar as [(-> & Hno)|(Hlt & Hprev & Hno)].
    - destruct Hb_prev as [->|(Hgt & Hprev)]; [done|]. exfalso.
      apply (Hno (b - 1)); [lia|done].
    - assert (line <= b).
      { destruct (decide (line <= b)); [done|]. exfalso.
        apply (Hb_no (line - 1)); [lia|done]. }
      destruct Hb_prev as [->|(Hgt & Hprev')]; [lia|].
      destruct (decide (line = b)); [done|]. exfalso.
      apply (Hno (b - 1)); [lia|done]. }
  subst line.
  assert (Hbytes : bytes h' = <[e:=NUL]> mem).
  { destruct Hframe as [(_ & _ & Hno)|(j & Hj & Hjlf & Hno & Hb' & _)].
    - exfalso. apply (Hno e); [lia|done].
    - rewrite Hb'. f_equal.
      destruct (decide (j < e)); [exfalso; apply (He_no j); [lia|done]|].
      destruct (decide (e < j)); [exfalso; apply (Hno e); [lia|done]|]. lia. }
  exists h'. split; [|done]. rewrite Hrun, Hbytes. do 3 f_equal.
  unfold spec_line. fold b. fold e.
  rewrite drop_insert_ge by lia. apply c_str_cut.
  - rewrite length_drop. lia.
  - intros a Ha. rewrite lookup_drop. apply Hnonul. lia.
Qed.

Lemma locator_returns_the_line_witness :
  exists h',
    get_parser_error_context parser_in_second_line two_lines_heap =
      Done (write_error_marker
              (string_of_list_ascii
                 (spec_line (bytes two_lines_heap)
                    (buffer_start parser_in_second_line)
                    (buffer_pointer parser_in_second_line)
                    (buffer_last parser_in_second_line)) ++ String LF EmptyString)
              (to_int (mark_column (problem_mark parser_in_second_line)))) h'
    /\ bytes h' = <[5:=NUL]> (bytes two_lines_heap).
Proof.
  apply (locator_returns_the_line parser_in_second_line two_lines_heap).
  - vm_compute; lia.
  - vm_compute; lia.
  - vm_compute; lia.
  - vm_compute; discriminate.
  - vm_compute; lia.
  - intros a Ha. vm_compute in Ha.
    assert (a = 3 \/ a = 4) as [->| ->] by lia; vm_compute; discriminate.
Defined.

(** ** The syntax error formatter *)

(** The formatter classifies the byte it finds at the pointer once the
    locator has run: the byte the tokenizer left there, unless that byte
    was a line feed. *)
Lemma parser_error_run (E : error_enums) parser yaml error h k :
  buffer_start parser <= buffer_pointer parser ->
  buffer_last parser < length (bytes h) ->
  buffer_pointer parser <= k ->
  bytes h !! k = Some NUL ->
  exists ctx h1 c,
    get_parser_error_context parser h = Done ctx h1
    /\ bytes h1 !! buffer_pointer parser = Some c
    /\ (forall c0, bytes h !! buffer_pointer parser = Some c0 -> c0 <> LF -> c = c0)
    /\ parser_error E parser yaml error h =
       Done (FALSE,
             g_set_error error (NETPLAN_PARSER_ERROR E) (NETPLAN_ERROR_INVALID_YAML E)
               (syntax_error_message yaml (problem_mark parser)
                  (spec_classify c (negb (token_available parser =? 0)%Z) (state parser))
                  (problem parser) ctx))
            (logged h1 [buffer_pointer parser]).
Proof.
  intros Hsp Hl Hk Hnul.
  destruct (get_parser_error_context_run parser h k Hsp Hl Hk (or_introl Hnul))
    as (line & new & h1 & Hrun & _ & _ & _ & Hframe).
  assert (Hlen : length (bytes h1) = length (bytes h)).
  { destruct Hframe as [(-> & _)|(j & _ & _ & _ & -> & _)]; [done|].
    by rewrite length_insert. }
  destruct (lookup_lt_is_Some_2 (bytes h1) (buffer_pointer parser)) as [c Hc].
  { apply lookup_lt_Some in Hnul. lia. }
  eexists _, h1, c. split; [exact Hrun|]. split; [exact Hc|]. split.
  { intros c0 Hc0 Hne. destruct Hframe as [(Hb & _)|(j & _ & Hlf & _ & Hb & _)].
    - rewrite Hb in Hc. congruence.
    - rewrite Hb in Hc. destruct (decide (j = buffer_pointer parser)) as [->|Hj].
      + congruence.
      + rewrite list_lookup_insert_ne in Hc by done. congruence. }
  unfold parser_error, bind. rewrite Hrun, (load_run _ _ _ Hc).
  unfold spec_classify, syntax_error_message, ret.
  destruct (Ascii.eqb c TAB); [simpl category_text; by rewrite !string_app_assoc|].
  rewrite negb_involutive.
  destruct ((Ascii.eqb c SP || Ascii.eqb c NUL) && (token_available parser =? 0)%Z);
    [simpl category_text; by rewrite !string_app_assoc|].
  destruct (is_block_mapping_key (state parser));
    [simpl category_text; by rewrite !string_app_assoc|].
  simpl category_text. by rewrite !string_app_assoc.
Qed.

(** C1 (the code at the failing input): the tokenizer stopped on the line
    feed that ends [cd], no token is available and the state is
    block-mapping-key.  The byte at the pointer is neither tab, space nor
    NUL, so the precedence gives inconsistent indentation; the formatter
    reports an unsupported alias, because the locator, which runs first,
    has put a NUL where the line feed was. *)
Theorem parser_error_line_feed_classified_as_alias (E : error_enums) :
  bytes two_lines_heap !! buffer_pointer parser_at_line_end = Some LF
  /\ spec_classify LF (negb (token_available parser_at_line_end =? 0)%Z)
       (state parser_at_line_end) = InconsistentIndentation
  /\ exists h',
      parser_error E parser_at_line_end (Some "f.yaml"%string) None two_lines_heap =
      Done (FALSE,
            Some (mkGError (NETPLAN_PARSER_ERROR E) (NETPLAN_ERROR_INVALID_YAML E)
                    ("f.yaml:2:3: Invalid YAML: aliases are not supported:" ++ lf
                     ++ "cd" ++ lf ++ "  ^")%string)) h'
      /\ bytes h' !! buffer_pointer parser_at_line_end = Some NUL.
Proof.
  split; [reflexivity|]. split; [reflexivity|].
  eexists. split; [vm_compute; reflexivity|]. reflexivity.
Qed.

(** X1: when the byte at the pointer is not a line feed, the category of
    the message follows the fixed precedence on that byte, the
    token-available flag and the tokenizer state: tab first, then space or
    NUL with no token available, then the block-mapping-key state, then the
    tokenizer's own problem text; the message is
    [<file>:<line+1>:<col+1>: Invalid YAML: <category text>:], a line feed
    and the locator's context, in the parser domain with the invalid-YAML
    code. *)
Theorem parser_error_classifies (E : error_enums) parser yaml error h k c :
  buffer_start parser <= buffer_pointer parser ->
  buffer_last parser < length (bytes h) ->
  buffer_pointer parser <= k ->
  bytes h !! k = Some NUL ->
  bytes h !! buffer_pointer parser = Some c ->
  c <> LF ->
  exists ctx h1 h',
    get_parser_error_context parser h = Done ctx h1
    /\ parser_error E parser yaml error h =
       Done (FALSE,
             g_set_error error (NETPLAN_PARSER_ERROR E) (NETPLAN_ERROR_INVALID_YAML E)
               (syntax_error_message yaml (problem_mark parser)
                  (spec_classify c (negb (token_available parser =? 0)%Z) (state parser))
                  (problem parser) ctx)) h'.
Proof.
  intros Hsp Hl Hk Hnul Hc Hne.
  destruct (parser_error_run E parser yaml error h k Hsp Hl Hk Hnul)
    as (ctx & h1 & c1 & Hctx & _ & Hsame & Hrun).
  rewrite <- (Hsame c Hc Hne). by eexists _, _, _.
Qed.

Lemma parser_error_classifies_witness :
  exists ctx h1 h',
    get_parser_error_context parser_on_tab tab_indent_heap = Done ctx h1
    /\ parser_error netplan_enums parser_on_tab (Some "net.yaml"%string) None
         tab_indent_heap =
       Done (FALSE,
             g_set_error None (NETPLAN_PARSER_ERROR netplan_enums)
               (NETPLAN_ERROR_INVALID_YAML netplan_enums)
               (syntax_error_message (Some "net.yaml"%string) (problem_mark parser_on_tab)
                  (spec_classify TAB (negb (token_available parser_on_tab =? 0)%Z)
                     (state parser_on_tab))
                  (problem parser_on_tab) ctx)) h'.
Proof.
  apply (parser_error_classifies netplan_enums parser_on_tab (Some "net.yaml"%string)
           None tab_indent_heap 14 TAB).
  - vm_compute; lia.
  - vm_compute; lia.
  - vm_compute; lia.
  - reflexivity.
  - reflexivity.
  - discriminate.
Defined.

(** The message for a key indented with a tab, while the state is
    block-mapping-key. *)
Example parser_error_tab_indent :
  exists h',
    parser_error netplan_enums parser_on_tab (Some "net.yaml"%string) None tab_indent_heap
    = Done (FALSE,
            Some (mkGError 1 0
                    ("net.yaml:1:3: Invalid YAML: tabs are not allowed for indent:" ++ lf
                     ++ "  " ++ tab ++ "key: value" ++ lf
                     ++ "  ^")%string)) h'.
Proof. eexists. vm_compute. reflexivity. Qed.




(** ** The error handle *)

Local Open Scope Z_scope.

(** C8 (as claimed, refuted): a handle with domain 1 and code -1.  The
    cast of the code to [uint64_t] extends its sign over the high half, and
    the high 32 bits of the composite are all ones, not the domain. *)
Lemma negative_code_overwrites_domain :
  is_guint32 (domain negative_code_error) /\ is_gint (code negative_code_error)
  /\ code_high32 (netplan_error_code negative_code_error) = 4294967295
  /\ code_high32 (netplan_error_code negative_code_error)
     <> domain negative_code_error.
Proof. vm_compute. repeat split; discriminate. Qed.

(** C8 (amended): for every handle whose domain is an unsigned 32-bit
    value and whose code is not negative, [netplan_error_code] is the
    64-bit value [(domain << 32) | code], its high 32 bits are the domain
    and its low 32 bits are the code. *)
Theorem netplan_error_code_round_trip (error : NetplanError) :
  is_guint32 (domain error) ->
  0 <= code error <= INT_MAX ->
  netplan_error_code error = Z.lor (Z.shiftl (domain error) 32) (code error)
  /\ 0 <= netplan_error_code error < 2 ^ 64
  /\ code_high32 (netplan_error_code error) = domain error
  /\ code_low32 (netplan_error_code error) = code error.
Proof.
  unfold is_guint32, INT_MAX. intros Hd Hc.
  assert (Hcode : netplan_error_code error
                  = Z.lor (Z.shiftl (domain error) 32) (code error)).
  { unfold netplan_error_code, to_uint64.
    rewrite (Z.mod_small (domain error)) by lia.
    rewrite (Z.mod_small (code error)) by lia.
    rewrite Z.mod_small; [done|]. rewrite Z.shiftl_mul_pow2 by lia. lia. }
  assert (Hsum : Z.lor (Z.shiftl (domain error) 32) (code error)
                 = domain error * 2 ^ 32 + code error).
  { rewrite <- Z.shiftl_mul_pow2 by lia. symmetry. apply Z.add_nocarry_lor.
    apply Z.bits_inj'. intros n Hn. rewrite Z.land_spec, Z.bits_0.
    destruct (Z.ltb_spec n 32).
    - by rewrite Z.shiftl_spec_low.
    - rewrite (Z.bits_above_log2 (code error) n); [by rewrite andb_false_r|lia|].
      destruct (decide (code error = 0)) as [->|?]; [simpl; lia|].
      apply Z.lt_le_trans with 32; [apply Z.log2_lt_pow2; lia|lia]. }
  rewrite Hcode. split; [done|]. rewrite Hsum. split; [lia|].
  unfold code_high32, code_low32. split.
  - rewrite Z.shiftr_div_pow2 by lia.
    rewrite Z.div_add_l by lia. rewrite Z.div_small; lia.
  - change (2 ^ 32 - 1) with (Z.ones 32). rewrite Z.land_ones by lia.
    rewrite Z.add_comm, Z.mod_add by lia. apply Z.mod_small. lia.
Qed.

Lemma netplan_error_code_round_trip_witness :
  netplan_error_code validation_error
    = Z.lor (Z.shiftl (domain validation_error) 32) (code validation_error)
  /\ 0 <= netplan_error_code validation_error < 2 ^ 64
  /\ code_high32 (netplan_error_code validation_error) = domain validation_error
  /\ code_low32 (netplan_error_code validation_error) = code validation_error.
Proof.
  apply (netplan_error_code_round_trip validation_error).
  - vm_compute. split; [discriminate|reflexivity].
  - vm_compute. split; discriminate.
Defined.

Lemma copy_bytes_spec src : forall buf capacity,
  let n := fst (copy_bytes src buf capacity) in
  let out := snd (copy_bytes src buf capacity) in
  (n <= capacity)%nat /\ (n <= length src)%nat
  /\ n = Nat.min (Nat.min (length src) capacity) (length buf)
  /\ out = take n src ++ drop n buf.
Proof.
  induction src as [|c src IH]; intros buf capacity; simpl.
  - destruct capacity; simpl; repeat split; lia.
  - destruct capacity as [|capacity]; [simpl; repeat split; lia|].
    destruct buf as [|b buf]; [simpl; repeat split; lia|].
    specialize (IH buf capacity). simpl in IH.
    destruct (copy_bytes src buf capacity) as [n out]. simpl in *.
    destruct IH as (? & ? & ? & ->). repeat split; try lia.
Qed.

(** C9: [netplan_error_message] returns a count between 0 and [buf_size],
    and that count is the number of bytes it writes: afterwards the
    destination holds the first [written] bytes of the message followed by
    its own bytes from [written] on, so every byte from the count on, and
    so every byte from [buf_size] on, keeps its value.  In a buffer of at
    least [buf_size] bytes the count is the smaller of the message length
    and [buf_size]: 4 for a 4-byte buffer and a 20-byte message. *)
Theorem netplan_error_message_bounded (error : NetplanError) (buf : list ascii)
    (buf_size : Z) :
  0 <= buf_size ->
  let written := fst (netplan_error_message error buf buf_size) in
  let buf' := snd (netplan_error_message error buf buf_size) in
  0 <= written <= buf_size
  /\ length buf' = length buf
  /\ (forall i : nat, written <= Z.of_nat i -> buf' !! i = buf !! i)
  /\ (buf_size <= Z.of_nat (length buf) ->
      written = Z.min (Z.of_nat (String.length (message error))) buf_size)
  /\ buf' = take (Z.to_nat written) (list_ascii_of_string (message error))
            ++ drop (Z.to_nat written) buf
  /\ (forall i : nat, Z.of_nat i < written ->
      buf' !! i = list_ascii_of_string (message error) !! i
      /\ is_Some (buf' !! i)).
Proof.
  intros Hsize. unfold netplan_error_message, netplan_copy_string.
  pose proof (copy_bytes_spec (list_ascii_of_string (message error)) buf
                (Z.to_nat buf_size)) as Hspec.
  destruct (copy_bytes _ buf (Z.to_nat buf_size)) as [n out]. simpl in *.
  destruct Hspec as (Hcap & Hsrc & Hn & ->).
  pose proof (text_length (message error)) as Hlen. unfold text in Hlen.
  split; [lia|]. split.
  { rewrite length_app, length_take, length_drop. lia. }
  split.
  { intros i Hi. rewrite lookup_app_r by (rewrite length_take; lia).
    rewrite length_take, lookup_drop. f_equal. lia. }
  split; [intros Hbuf; lia|].
  split; [by rewrite Nat2Z.id|].
  intros i Hi.
  rewrite lookup_app_l by (rewrite length_take; lia).
  rewrite lookup_take_lt by lia. split; [done|].
  apply lookup_lt_is_Some. lia.
Qed.

Lemma netplan_error_message_bounded_witness :
  let written := fst (netplan_error_message twenty_byte_error (text "....") 4) in
  let buf' := snd (netplan_error_message twenty_byte_error (text "....") 4) in
  0 <= written <= 4
  /\ length buf' = length (text "....")
  /\ (forall i : nat, written <= Z.of_nat i -> buf' !! i = text "...." !! i)
  /\ (4 <= Z.of_nat (length (text "....")) ->
      written = Z.min (Z.of_nat (String.length (message twenty_byte_error))) 4)
  /\ buf' = take (Z.to_nat written) (list_ascii_of_string (message twenty_byte_error))
            ++ drop (Z.to_nat written) (text "....")
  /\ (forall i : nat, Z.of_nat i < written ->
      buf' !! i = list_ascii_of_string (message twenty_byte_error) !! i
      /\ is_Some (buf' !! i)).
Proof.
  apply (netplan_error_message_bounded twenty_byte_error (text "....") 4). lia.
Defined.

(** A 4-byte buffer against a 20-byte message: 4 is returned and the
    buffer holds the first 4 bytes of the message. *)
Example netplan_error_message_four_of_twenty :
  String.length (message twenty_byte_error) = 20%nat
  /\ netplan_error_message twenty_byte_error (text "....") 4 = (4, text "Erro").
Proof. split; reflexivity. Qed.

(** ** More on the error handle *)

Lemma to_uint64_gint_negative c :
  - 2 ^ 31 <= c < 0 -> to_uint64 c = c + 2 ^ 64.
Proof.
  intros Hc. unfold to_uint64.
  replace c with (c + 2 ^ 64 + (-1) * 2 ^ 64) at 1 by lia.
  rewrite Z.mod_add by lia. apply Z.mod_small. lia.
Qed.

Lemma shifted_domain (d : Z) :
  is_guint32 d -> to_uint64 (Z.shiftl (to_uint64 d) 32) = d * 2 ^ 32.
Proof.
  unfold is_guint32, to_uint64. intros Hd.
  rewrite (Z.mod_small d) by lia. rewrite Z.shiftl_mul_pow2 by lia.
  apply Z.mod_small. lia.
Qed.

Lemma lor_disjoint_halves (d c : Z) :
  0 <= d -> 0 <= c < 2 ^ 32 -> Z.lor (d * 2 ^ 32) c = d * 2 ^ 32 + c.
Proof.
  intros Hd Hc. symmetry. apply Z.add_nocarry_lor.
  apply Z.bits_inj'. intros n Hn. rewrite Z.land_spec, Z.bits_0.
  rewrite <- Z.shiftl_mul_pow2 by lia.
  destruct (Z.ltb_spec n 32).
  - by rewrite Z.shiftl_spec_low.
  - rewrite (Z.bits_above_log2 c n); [by rewrite andb_false_r|lia|].
    destruct (decide (c = 0)) as [->|?]; [simpl; lia|].
    apply Z.lt_le_trans with 32; [apply Z.log2_lt_pow2; lia|lia].
Qed.

Lemma netplan_error_code_value (error : NetplanError) :
  is_guint32 (domain error) ->
  0 <= code error <= INT_MAX ->
  netplan_error_code error = domain error * 2 ^ 32 + code error.
Proof.
  intros Hd Hc. unfold netplan_error_code. rewrite shifted_domain by done.
  unfold is_guint32, INT_MAX in *.
  unfold to_uint64 at 1. rewrite (Z.mod_small (code error)) by lia.
  apply lor_disjoint_halves; lia.
Qed.

(** X5: on handles with an unsigned 32-bit domain and a code that is not
    negative, the composite code is one-to-one: two handles have the same
    composite code only if they have the same domain and the same code
    (their messages play no part). *)
Theorem netplan_error_code_injective (e1 e2 : NetplanError) :
  is_guint32 (domain e1) -> 0 <= code e1 <= INT_MAX ->
  is_guint32 (domain e2) -> 0 <= code e2 <= INT_MAX ->
  netplan_error_code e1 = netplan_error_code e2 ->
  domain e1 = domain e2 /\ code e1 = code e2.
Proof.
  intros Hd1 Hc1 Hd2 Hc2.
  rewrite !netplan_error_code_value by done.
  unfold is_guint32, INT_MAX in *. lia.
Qed.

Lemma netplan_error_code_injective_witness :
  domain (mkGError 2 1 "other text") = domain validation_error
  /\ code (mkGError 2 1 "other text") = code validation_error.
Proof.
  apply (netplan_error_code_injective (mkGError 2 1 "other text") validation_error).
  - vm_compute. split; [discriminate|reflexivity].
  - vm_compute. split; discriminate.
  - vm_compute. split; [discriminate|reflexivity].
  - vm_compute. split; discriminate.
  - reflexivity.
Defined.

(** X6: for every handle with a negative code, whatever its domain, the
    cast to [uint64_t] extends the sign: the high 32 bits of the composite
    code are all ones and the low 32 bits are the code's two's complement
    pattern, [code + 2^32]. *)
Theorem netplan_error_code_negative (error : NetplanError) :
  is_guint32 (domain error) ->
  - 2 ^ 31 <= code error < 0 ->
  code_high32 (netplan_error_code error) = 2 ^ 32 - 1
  /\ code_low32 (netplan_error_code error) = code error + 2 ^ 32.
Proof.
  intros Hd Hc. unfold netplan_error_code.
  rewrite shifted_domain by done. rewrite to_uint64_gint_negative by done.
  unfold is_guint32 in Hd.
  replace (code error + 2 ^ 64)
    with ((2 ^ 32 - 1) * 2 ^ 32 + (code error + 2 ^ 32)) by lia.
  set (low := code error + 2 ^ 32).
  assert (Hlow : 0 <= low < 2 ^ 32) by (subst low; lia).
  rewrite <- (lor_disjoint_halves (2 ^ 32 - 1) low) by lia.
  rewrite Z.lor_assoc.
  assert (Hhigh : Z.lor (domain error * 2 ^ 32) ((2 ^ 32 - 1) * 2 ^ 32)
                  = (2 ^ 32 - 1) * 2 ^ 32).
  { rewrite <- !Z.shiftl_mul_pow2 by lia. rewrite <- Z.shiftl_lor. f_equal.
    change (2 ^ 32 - 1) with (Z.ones 32).
    apply Z.bits_inj'. intros n Hn. rewrite Z.lor_spec.
    destruct (Z.ltb_spec n 32).
    - rewrite Z.ones_spec_low by lia. apply orb_true_r.
    - rewrite Z.ones_spec_high by lia. rewrite orb_false_r.
      destruct (decide (domain error = 0)) as [->|?]; [apply Z.bits_0|].
      apply Z.bits_above_log2; [lia|].
      apply Z.lt_le_trans with 32; [apply Z.log2_lt_pow2; lia|lia]. }
  rewrite Hhigh. rewrite lor_disjoint_halves by lia.
  unfold code_high32, code_low32. split.
  - rewrite Z.shiftr_div_pow2 by lia. rewrite Z.div_add_l by lia.
    rewrite Z.div_small; lia.
  - change (2 ^ 32 - 1) with (Z.ones 32) at 2. rewrite Z.land_ones by lia.
    rewrite Z.add_comm, Z.mod_add by lia. apply Z.mod_small. lia.
Qed.

Lemma netplan_error_code_negative_witness :
  code_high32 (netplan_error_code negative_code_error) = 2 ^ 32 - 1
  /\ code_low32 (netplan_error_code negative_code_error)
     = code negative_code_error + 2 ^ 32.
Proof.
  apply (netplan_error_code_negative negative_code_error).
  - vm_compute. split; [discriminate|reflexivity].
  - vm_compute. split; [discriminate|reflexivity].
Defined.

(** ** More on the file line locator and the semantic errors *)

Lemma count_line_feeds_app (a b : string) :
  count_line_feeds (a ++ b) = (count_line_feeds a + count_line_feeds b)%nat.
Proof.
  induction a as [|c a IH]; simpl; [done|].
  destruct (Ascii.eqb c LF); simpl; by rewrite IH.
Qed.

Lemma count_line_feeds_spaces n : count_line_feeds (spaces n) = O.
Proof. induction n; simpl; done. Qed.

Lemma count_line_feeds_c_str l : no_line_feed l -> count_line_feeds (c_str l) = O.
Proof.
  induction 1 as [|c l Hc _ IH]; simpl; [done|].
  destruct (Ascii.eqb c NUL); simpl; [done|].
  apply Ascii.eqb_neq in Hc. by rewrite Hc.
Qed.

Lemma split_line_no_line_feed s : no_line_feed (fst (split_line s)).
Proof.
  induction s as [|c s IH]; simpl; [constructor|].
  destruct (Ascii.eqb c LF) eqn:Hc; simpl; [constructor|].
  destruct (split_line s) as [l r]. simpl in *.
  constructor; [by apply Ascii.eqb_neq|done].
Qed.

Lemma read_line_no_line_feed stream l :
  fst (g_data_input_stream_read_line stream) = Some l -> no_line_feed l.
Proof.
  destruct stream as [[|c s]|]; simpl; try discriminate.
  pose proof (split_line_no_line_feed (c :: s)) as Hno. simpl in Hno.
  destruct (Ascii.eqb c LF); simpl in *.
  - intros [= <-]. constructor.
  - destruct (split_line s) as [l' r]. simpl in *. by intros [= <-].
Qed.

Lemma syntax_error_line_no_line_feed stream line_num l :
  syntax_error_line stream line_num = Some l -> no_line_feed l.
Proof.
  unfold syntax_error_line, for_loop.
  destruct (Z.to_nat (to_int (line_num + 1))) as [|m]; simpl; [discriminate|].
  unfold read_next at 1. apply read_line_no_line_feed.
Qed.


Lemma file_lines_line_then_rest l rest :
  no_line_feed l -> file_lines (l ++ LF :: rest) = l :: file_lines rest.
Proof.
  induction 1 as [|c l Hc _ IH]; simpl; [done|].
  apply Ascii.eqb_neq in Hc. by rewrite Hc, IH.
Qed.

Lemma file_lines_unlines ls :
  Forall no_line_feed ls -> file_lines (unlines ls) = ls.
Proof.
  induction 1 as [|l ls Hl _ IH]; simpl; [done|].
  by rewrite file_lines_line_then_rest, IH.
Qed.

Lemma file_lines_last_line l :
  no_line_feed l -> l <> [] -> file_lines l = [l].
Proof.
  induction 1 as [|c l Hc Hl IH]; intros Hne; [done|]. simpl.
  apply Ascii.eqb_neq in Hc. rewrite Hc.
  destruct l as [|d l]; [done|]. by rewrite IH.
Qed.

Lemma file_lines_unlines_last ls l :
  Forall no_line_feed ls -> no_line_feed l -> l <> [] ->
  file_lines (unlines ls ++ l) = ls ++ [l].
Proof.
  intros Hls Hl Hne. induction Hls as [|l0 ls Hl0 _ IH]; simpl.
  - by apply file_lines_last_line.
  - rewrite <- app_assoc. simpl. by rewrite file_lines_line_then_rest, IH.
Qed.

(** X8: for a file made of the lines [ls], each ended by a line feed, and
    possibly a last line [tail] with no line feed after it, the file line
    locator called with line number [k] (0-based, [k + 1] within [int])
    builds its context from line [k] of the file, the unterminated last
    line included, and from [NULL] when the file has no such line.  The
    error slot is left as it was. *)
Theorem file_locator_picks_the_line fs npp path ls tail k column error :
  current_filepath npp = Some path ->
  Forall no_line_feed ls -> no_line_feed tail ->
  fs path = Readable (unlines ls ++ tail) ->
  0 <= k -> k + 1 <= INT_MAX ->
  get_syntax_error_context fs npp k column error
  = (write_error_marker
       (fmt_s (c_str <$> (ls ++ match tail with [] => [] | _ => [tail] end)
                         !! Z.to_nat k) ++ lf) column,
     error).
Proof.
  intros Hpath Hls Hl Hfs Hk Hmax.
  unfold get_syntax_error_context, g_file_read.
  rewrite Hpath, Hfs. rewrite syntax_error_line_nth by done.
  destruct tail as [|c tail].
  - by rewrite !app_nil_r, file_lines_unlines.
  - by rewrite file_lines_unlines_last.
Qed.

Lemma file_locator_picks_the_line_witness :
  get_syntax_error_context three_lines_fs net_yaml 3 2 None
  = (write_error_marker
       (fmt_s (c_str <$> (three_lines
                          ++ match text "# end" with [] => [] | _ => [text "# end"] end)
                         !! Z.to_nat 3) ++ lf) 2,
     None).
Proof.
  apply (file_locator_picks_the_line three_lines_fs net_yaml "net.yaml"
           three_lines (text "# end") 3 2 None).
  - reflexivity.
  - repeat constructor; discriminate.
  - repeat constructor; discriminate.
  - reflexivity.
  - lia.
  - unfold INT_MAX. lia.
Defined.

Lemma read_null_stream m : Nat.iter m read_next (None, None) = (None, None).
Proof. induction m as [|m IH]; simpl; [done|]. by rewrite IH. Qed.

Lemma syntax_error_line_null_stream line_num : syntax_error_line None line_num = None.
Proof. unfold syntax_error_line, for_loop. by rewrite read_null_stream. Qed.





(** ** More on the buffer line locator and the syntax errors *)

Local Open Scope nat_scope.

Lemma located_line_is_spec_begin mem start pointer line :
  start <= pointer ->
  (line = start
   /\ forall a, start < a < pointer -> mem !! a <> Some LF)
  \/ (start < line <= pointer
      /\ mem !! (line - 1) = Some LF
      /\ forall a, line <= a < pointer -> mem !! a <> Some LF) ->
  spec_line_begin mem start pointer <> S start ->
  line = spec_line_begin mem start pointer.
Proof.
  intros Hsp Hchar Hslip.
  destruct (spec_line_begin_char mem start pointer Hsp) as (Hb & Hb_no & Hb_prev).
  set (b := spec_line_begin mem start pointer) in *.
  destruct Hchar as [(-> & Hno)|(Hlt & Hprev & Hno)].
  - destruct Hb_prev as [->|(Hgt & Hprev)]; [done|]. exfalso.
    apply (Hno (b - 1)); [lia|done].
  - assert (line <= b).
    { destruct (decide (line <= b)); [done|]. exfalso.
      apply (Hb_no (line - 1)); [lia|done]. }
    destruct Hb_prev as [Heq|(Hgt & Hprev')]; [lia|].
    destruct (decide (line = b)); [done|]. exfalso.
    apply (Hno (b - 1)); [lia|done].
Qed.

(** X11: on the last line of the input, where no line feed follows the
    line's first byte up to [buffer_last] and a NUL stands at or after the
    pointer, the locator writes nothing and returns the bytes from the
    beginning of the line (after the nearest line feed before the pointer,
    or [buffer_start]) up to the first NUL, whether that NUL is inside the
    buffer or after it. *)
Theorem locator_returns_last_line parser h k :
  let mem := bytes h in
  let b := spec_line_begin mem (buffer_start parser) (buffer_pointer parser) in
  buffer_start parser <= buffer_pointer parser <= buffer_last parser ->
  buffer_last parser < length mem ->
  b <> S (buffer_start parser) ->
  (forall a, b < a <= buffer_last parser -> mem !! a <> Some LF) ->
  buffer_pointer parser <= k ->
  mem !! k = Some NUL ->
  exists h',
    get_parser_error_context parser h =
      Done (write_error_marker (c_str (drop b mem) ++ String LF EmptyString)
              (to_int (mark_column (problem_mark parser)))) h'
    /\ bytes h' = mem /\ stores h' = stores h.
Proof.
  intros mem b Hsp Hl Hslip Hno Hk Hnul.
  destruct (get_parser_error_context_run parser h k) as
    (line & new & h' & Hrun & _ & _ & Hchar & Hframe);
    [lia|exact Hl|exact Hk|by left|].
  assert (Hline : line = b)
    by (apply located_line_is_spec_begin; [lia|exact Hchar|exact Hslip]).
  subst line. exists h'.
  destruct Hframe as [(Hb & Hst & _)|(j & Hj & Hjlf & _)].
  - rewrite Hrun, Hb. done.
  - exfalso. apply (Hno j); [lia|done].
Qed.

Lemma locator_returns_last_line_witness :
  exists h',
    get_parser_error_context parser_in_last_line two_lines_heap =
      Done (write_error_marker
              (c_str (drop (spec_line_begin (bytes two_lines_heap)
                              (buffer_start parser_in_last_line)
                              (buffer_pointer parser_in_last_line))
                        (bytes two_lines_heap)) ++ String LF EmptyString)
              (to_int (mark_column (problem_mark parser_in_last_line)))) h'
    /\ bytes h' = bytes two_lines_heap /\ stores h' = stores two_lines_heap.
Proof.
  apply (locator_returns_last_line parser_in_last_line two_lines_heap 8).
  - vm_compute; lia.
  - vm_compute; lia.
  - vm_compute; lia.
  - intros a Ha. vm_compute in Ha.
    assert (a = 7 \/ a = 8) as [->| ->] by lia; vm_compute; discriminate.
  - vm_compute; lia.
  - reflexivity.
Defined.

(** X12: when the tokenizer stopped on the line feed that ends a line
    which is not empty, the locator replaces that line feed by a NUL
    before the byte is classified, so [parser_error] selects the category
    that the precedence gives for a NUL byte: unsupported alias when no
    token is available, and otherwise inconsistent indentation or the
    tokenizer's problem text according to the state. *)
Theorem parser_error_on_line_end (E : error_enums) parser yaml error h k :
  buffer_start parser < buffer_pointer parser <= buffer_last parser ->
  buffer_last parser < length (bytes h) ->
  buffer_pointer parser <= k ->
  bytes h !! k = Some NUL ->
  bytes h !! buffer_pointer parser = Some LF ->
  bytes h !! (buffer_pointer parser - 1) <> Some LF ->
  exists ctx h1 h',
    get_parser_error_context parser h = Done ctx h1
    /\ bytes h1 = <[buffer_pointer parser:=NUL]> (bytes h)
    /\ parser_error E parser yaml error h =
       Done (FALSE,
             g_set_error error (NETPLAN_PARSER_ERROR E) (NETPLAN_ERROR_INVALID_YAML E)
               (syntax_error_message yaml (problem_mark parser)
                  (spec_classify NUL (negb (token_available parser =? 0)%Z) (state parser))
                  (problem parser) ctx)) h'.
Proof.
  intros Hsp Hl Hk Hnul Hlf Hprev.
  destruct (get_parser_error_context_run parser h k) as
    (line & new & h1 & Hrun & _ & _ & Hchar & Hframe);
    [lia|exact Hl|exact Hk|by left|].
  assert (Hline : line < buffer_pointer parser
                  /\ forall a, line < a < buffer_pointer parser -> bytes h !! a <> Some LF).
  { destruct Hchar as [(-> & Hno)|(Hlt & Hlf' & Hno)].
    - split; [lia|done].
    - split.
      + destruct (decide (line = buffer_pointer parser)) as [Heq|?]; [|lia].
        rewrite Heq in Hlf'. done.
      + intros a Ha. apply Hno. lia. }
  destruct Hline as [Hlt Hno_before].
  assert (Hbytes : bytes h1 = <[buffer_pointer parser:=NUL]> (bytes h)).
  { destruct Hframe as [(_ & _ & Hno)|(j & Hj & Hjlf & Hno & Hb & _)].
    - exfalso. apply (Hno (buffer_pointer parser)); [lia|done].
    - rewrite Hb. f_equal.
      destruct (decide (j < buffer_pointer parser));
        [exfalso; apply (Hno_before j); [lia|done]|].
      destruct (decide (buffer_pointer parser < j));
        [exfalso; apply (Hno (buffer_pointer parser)); [lia|done]|]. lia. }
  destruct (parser_error_run E parser yaml error h k) as
    (ctx & h1' & c & Hctx & Hc & _ & Hperr); [lia|exact Hl|exact Hk|exact Hnul|].
  rewrite Hrun in Hctx. injection Hctx as Hctx_eq Hh1. subst h1'.
  rewrite Hbytes in Hc. rewrite list_lookup_insert_eq in Hc by lia.
  injection Hc as <-.
  eexists _, h1, _. split; [exact Hrun|]. split; [exact Hbytes|].
  rewrite Hperr. by rewrite Hctx_eq.
Qed.

Lemma parser_error_on_line_end_witness :
  exists ctx h1 h',
    get_parser_error_context parser_at_line_end two_lines_heap = Done ctx h1
    /\ bytes h1 = <[buffer_pointer parser_at_line_end:=NUL]> (bytes two_lines_heap)
    /\ parser_error netplan_enums parser_at_line_end (Some "f.yaml"%string) None
         two_lines_heap =
       Done (FALSE,
             g_set_error None (NETPLAN_PARSER_ERROR netplan_enums)
               (NETPLAN_ERROR_INVALID_YAML netplan_enums)
               (syntax_error_message (Some "f.yaml"%string)
                  (problem_mark parser_at_line_end)
                  (spec_classify NUL (negb (token_available parser_at_line_end =? 0)%Z)
                     (state parser_at_line_end))
                  (problem parser_at_line_end) ctx)) h'.
Proof.
  apply (parser_error_on_line_end netplan_enums parser_at_line_end
           (Some "f.yaml"%string) None two_lines_heap 8).
  - vm_compute; lia.
  - vm_compute; lia.
  - vm_compute; lia.
  - reflexivity.
  - reflexivity.
  - vm_compute; discriminate.
Defined.
